(** * The kernel's generic binary min-heap (include/linux/min_heap.h)

    A shallow embedding of the five heap primitives -- [__min_heapify],
    [__min_heapify_all], [__min_heap_pop], [__min_heap_pop_push] and
    [__min_heap_push] -- together with the properties the design document
    states about them.

    Modelling choices:
    - the backing buffer is a [list T] of typed cells ([elem_size] and the
      pointer arithmetic [data + i * elem_size] become cell indices); an
      access outside the buffer is a fault ([None]);
    - [int] values are integers in [Z]; every [int] operation is written
      with its 32-bit two's-complement wrap-around ([int_wrap]), and [/] is
      C's truncating division ([Z.quot]);
    - the callbacks [less] and [swp] are the fields of
      [min_heap_callbacks]; [swp] returns the new contents of its two
      arguments;
    - a ghost [log] counts the calls made through the callbacks and records
      the [WARN_ONCE] diagnostics, so that statements about the number of
      comparisons and swaps can be made about the code itself;
    - loops run on fuel taken from the buffer length. *)

From Stdlib Require Import ZArith Lia List String Permutation.
From stdpp Require Import base list strings.

Local Open Scope Z_scope.

(** ** Machine integers *)

(** [int] is 32 bits wide, as on every architecture the kernel supports. *)
Definition INT_MAX : Z := 2147483647.

Definition int_wrap (z : Z) : Z := (z + 2147483648) mod 4294967296 - 2147483648.

(** [i * 2 + 1], [i * 2 + 2] and [(i - 1) / 2] on [int]. *)
Definition left_of (i : Z) : Z := int_wrap (int_wrap (i * 2) + 1).
Definition right_of (i : Z) : Z := int_wrap (int_wrap (i * 2) + 2).
Definition parent_of (i : Z) : Z := int_wrap (Z.quot (int_wrap (i - 1)) 2).

(** ** Ghost log and the monad of the embedding *)

Record log := { n_less : nat; n_swp : nat; warned : list string }.

Definition M (A : Type) : Type := log -> option (A * log).

Definition ret {A} (a : A) : M A := fun g => Some (a, g).

Definition fault {A} : M A := fun _ => None.

Definition bind {A B} (m : M A) (k : A -> M B) : M B :=
  fun g => match m g with
           | Some (a, g') => k a g'
           | None => None
           end.

Notation "'let*' x := m 'in' k" := (bind m (fun x => k))
  (at level 10, x pattern, m at level 100, k at level 200).

Definition tick_less : M unit :=
  fun g => Some (tt, {| n_less := S (n_less g); n_swp := n_swp g; warned := warned g |}).

Definition tick_swp : M unit :=
  fun g => Some (tt, {| n_less := n_less g; n_swp := S (n_swp g); warned := warned g |}).

(** Modelled from the spec: the [WARN_ONCE(cond, msg)] macro of linux/bug.h,
    which is not among the sources.  It yields [cond] and, when [cond]
    holds, reports the violation once: the message is logged unless it has
    been logged before. *)
Definition WARN_ONCE (cond : bool) (msg : string) : M bool :=
  fun g =>
    if cond then
      if existsb (String.eqb msg) (warned g) then Some (true, g)
      else Some (true, {| n_less := n_less g; n_swp := n_swp g;
                          warned := msg :: warned g |})
    else Some (false, g).

Section Embedding.
Context {T : Type}.

(** [struct __min_heap], with the buffer [data] points to. *)
Record min_heap := { data : list T; nr : Z; size : Z }.

(** [struct min_heap_callbacks]. *)
Record min_heap_callbacks := { less : T -> T -> bool; swp : T -> T -> T * T }.

(** *** Buffer accesses *)

Definition load (d : list T) (i : Z) : M T :=
  fun g => if 0 <=? i
           then match d !! Z.to_nat i with
                | Some x => Some (x, g)
                | None => None
                end
           else None.

Definition store (d : list T) (i : Z) (x : T) : M (list T) :=
  fun g => if (0 <=? i) && (i <? Z.of_nat (length d))
           then Some (<[Z.to_nat i := x]> d, g)
           else None.

(** Modelled from the spec: [memcpy] of linux/string.h, which is not among
    the sources, as used in
    [memcpy(data + dst * elem_size, data + src * elem_size, elem_size)]: it
    copies one element from cell [src] to cell [dst]. *)
Definition memcpy_cell (d : list T) (dst src : Z) : M (list T) :=
  let* x := load d src in store d dst x.

(** [func->less(data + i * elem_size, data + j * elem_size)]. *)
Definition call_less (func : min_heap_callbacks) (d : list T) (i j : Z) : M bool :=
  let* a := load d i in
  let* b := load d j in
  let* _ := tick_less in
  ret (less func a b).

(** [func->swp(data + i * elem_size, data + j * elem_size)]. *)
Definition call_swp (func : min_heap_callbacks) (d : list T) (i j : Z) : M (list T) :=
  let* a := load d i in
  let* b := load d j in
  let* _ := tick_swp in
  let* d1 := store d i (fst (swp func a b)) in
  store d1 j (snd (swp func a b)).

(** *** [__min_heapify] *)

(** Find the sift-down path all the way to the leaves. *)
Fixpoint descend (fuel : nat) (func : min_heap_callbacks) (d : list T) (n i : Z) : M Z :=
  match fuel with
  | O => fault
  | S fuel' =>
      if right_of i >=? n then ret i
      else
        let* b := call_less func d (left_of i) (right_of i) in
        descend fuel' func d n (if b then left_of i else right_of i)
  end.

(** Special case for the last leaf with no sibling. *)
Definition last_leaf (n i : Z) : Z :=
  if right_of i =? n then left_of i else i.

(** Backtrack to the correct location. *)
Fixpoint backtrack (fuel : nat) (func : min_heap_callbacks) (d : list T) (pos i : Z) : M Z :=
  match fuel with
  | O => fault
  | S fuel' =>
      if i =? pos then ret i
      else
        let* b := call_less func d pos i in
        if b then backtrack fuel' func d pos (parent_of i) else ret i
  end.

(** Shift the element into its correct place. *)
Fixpoint shift (fuel : nat) (func : min_heap_callbacks) (d : list T) (pos i j : Z) : M (list T) :=
  match fuel with
  | O => fault
  | S fuel' =>
      if i =? pos then ret d
      else
        let* d' := call_swp func d (parent_of i) j in
        shift fuel' func d' pos (parent_of i) j
  end.

(** The index at which the element at [pos] comes to rest: the first two
    loops of [__min_heapify] and the special case between them. *)
Definition resting_index (heap : min_heap) (pos : Z) (func : min_heap_callbacks) : M Z :=
  let fuel := S (length (data heap)) in
  let* i := descend fuel func (data heap) (nr heap) pos in
  backtrack fuel func (data heap) pos (last_leaf (nr heap) i).

Definition __min_heapify (heap : min_heap) (pos : Z) (func : min_heap_callbacks) : M min_heap :=
  let* j := resting_index heap pos func in
  let* d := shift (S (length (data heap))) func (data heap) pos j j in
  ret {| data := d; nr := nr heap; size := size heap |}.

(** *** [__min_heapify_all] *)

Fixpoint heapify_down (fuel : nat) (heap : min_heap) (i : Z) (func : min_heap_callbacks) : M min_heap :=
  match fuel with
  | O => fault
  | S fuel' =>
      if i >=? 0 then
        let* heap' := __min_heapify heap i func in
        heapify_down fuel' heap' (int_wrap (i - 1)) func
      else ret heap
  end.

Definition __min_heapify_all (heap : min_heap) (func : min_heap_callbacks) : M min_heap :=
  heapify_down (S (length (data heap))) heap
               (int_wrap (int_wrap (Z.quot (nr heap) 2) - 1)) func.

(** *** [__min_heap_pop] *)

Definition __min_heap_pop (heap : min_heap) (func : min_heap_callbacks) : M min_heap :=
  let* w := WARN_ONCE (nr heap <=? 0) "Popping an empty heap" in
  if w then ret heap
  else
    let n := int_wrap (nr heap - 1) in
    let* d := memcpy_cell (data heap) 0 n in
    __min_heapify {| data := d; nr := n; size := size heap |} 0 func.

(** *** [__min_heap_pop_push] *)

Definition __min_heap_pop_push (heap : min_heap) (element : T) (func : min_heap_callbacks) : M min_heap :=
  let* d := store (data heap) 0 element in
  __min_heapify {| data := d; nr := nr heap; size := size heap |} 0 func.

(** *** [__min_heap_push] *)

(** Sift child at [pos] up. *)
Fixpoint sift_up (fuel : nat) (func : min_heap_callbacks) (d : list T) (pos : Z) : M (list T) :=
  match fuel with
  | O => fault
  | S fuel' =>
      if pos >? 0 then
        let* b := call_less func d (parent_of pos) pos in
        if b then ret d
        else
          let* d' := call_swp func d (parent_of pos) pos in
          sift_up fuel' func d' (parent_of pos)
      else ret d
  end.

Definition __min_heap_push (heap : min_heap) (element : T) (func : min_heap_callbacks) : M min_heap :=
  let* w := WARN_ONCE (nr heap >=? size heap) "Pushing on a full heap" in
  if w then ret heap
  else
    let pos := nr heap in
    let* d := store (data heap) pos element in
    let* d' := sift_up (S (length (data heap))) func d pos in
    ret {| data := d'; nr := int_wrap (nr heap + 1); size := size heap |}.

End Embedding.

Arguments min_heap : clear implicits.
Arguments min_heap_callbacks : clear implicits.

(** ** Derived notions used in the statements *)

(** Depth of an index in the implicit binary tree (the root has depth 0). *)
Definition depth (i : Z) : Z := Z.log2 (i + 1).

(** The [k]-th ancestor of index [j]. *)
Definition up (k : nat) (j : Z) : Z := Nat.iter k (fun i => (i - 1) / 2) j.

(** [c] is one of the two child indices of [p]. *)
Definition is_child (p c : Z) : Prop := 0 <= p /\ (c = 2 * p + 1 \/ c = 2 * p + 2).

Definition add_less (k : nat) (g : log) : log :=
  {| n_less := k + n_less g; n_swp := n_swp g; warned := warned g |}.

Definition add_swp (k : nat) (g : log) : log :=
  {| n_less := n_less g; n_swp := k + n_swp g; warned := warned g |}.

(** A chain of [N] parent links from [L] up to [up N L]. *)
Definition chain (L : Z) (N : nat) : Prop :=
  forall k, (k < N)%nat -> is_child (up (S k) L) (up k L).

Section Notions.
Context {T : Type}.
Implicit Types (d : list T) (g : log) (h : min_heap T) (func : min_heap_callbacks T).

(** The live elements: the first [nr] cells of the buffer. *)
Definition live h : list T := take (Z.to_nat (nr h)) (data h).

(** A heap state as the data model describes it: [0 <= nr <= size], a
    buffer of at least [size] cells, and a capacity for which the index
    arithmetic [2 * i + 2] stays inside [int]. *)
Definition heap_wf h : Prop :=
  0 <= nr h <= size h /\ size h <= Z.of_nat (length (data h)) /\ 2 * size h <= INT_MAX.

(** No child at or below index [k] compares less than its parent. *)
Definition heap_from func d (n k : Z) : Prop :=
  forall p c x y, k <= p -> is_child p c -> c < n ->
    d !! Z.to_nat p = Some x -> d !! Z.to_nat c = Some y -> less func y x = false.

(** The heap property over the first [nr] elements. *)
Definition heap_property func h : Prop := heap_from func (data h) (nr h) 0.

(** Executable check of the heap property. *)
Definition child_ok func d (n p c : Z) : bool :=
  if c <? n then
    match d !! Z.to_nat p, d !! Z.to_nat c with
    | Some x, Some y => negb (less func y x)
    | _, _ => true
    end
  else true.

Definition heap_propertyb func h : bool :=
  forallb (fun i => let p := Z.of_nat i in
                    child_ok func (data h) (nr h) p (2 * p + 1) &&
                    child_ok func (data h) (nr h) p (2 * p + 2))
          (seq 0 (Z.to_nat (nr h))).

(** The contract of the [swp] callback: it exchanges its two arguments. *)
Definition swp_exchanges func : Prop := forall a b, swp func a b = (b, a).

(** The contract of the [less] callback: a strict order (irreflexive and
    transitive) that is consistent enough to shape a heap: being
    not-less-than is transitive as well (a strict weak order; ties between
    distinct elements are allowed). *)
Record strict_weak_order func : Prop := {
  less_irrefl : forall a, less func a a = false;
  less_trans : forall a b c, less func a b = true -> less func b c = true -> less func a c = true;
  less_neg_trans : forall a b c, less func a b = false -> less func b c = false -> less func a c = false
}.

(** A strict order in which, moreover, distinct elements are comparable. *)
Definition strict_total_order func : Prop :=
  strict_weak_order func /\
  forall a b, less func a b = false -> less func b a = false -> a = b.

(** The sequence is non-decreasing: no value compares less than one before it. *)
Definition non_decreasing func (l : list T) : Prop :=
  forall i j x y, (i < j)%nat -> l !! i = Some x -> l !! j = Some y -> less func y x = false.

(** *** Sequences of operations *)

Inductive op := Push (x : T) | Pop | PopPush (x : T) | HeapifyAll.

(** The precondition of an operation, on the element count [n] and the
    capacity [sz]. *)
Definition valid_op (o : op) (n sz : Z) : Prop :=
  match o with
  | Push _ => n < sz
  | Pop => 0 < n
  | PopPush _ => 0 < n
  | HeapifyAll => True
  end.

Definition nr_after (o : op) (n : Z) : Z :=
  match o with
  | Push _ => n + 1
  | Pop => n - 1
  | PopPush _ => n
  | HeapifyAll => n
  end.

(** Every operation of the sequence is called within its precondition. *)
Fixpoint valid_ops (ops : list op) (n sz : Z) : Prop :=
  match ops with
  | [] => True
  | o :: os => valid_op o n sz /\ valid_ops os (nr_after o n) sz
  end.

Definition run_op func (o : op) h : M (min_heap T) :=
  match o with
  | Push x => __min_heap_push h x func
  | Pop => __min_heap_pop h func
  | PopPush x => __min_heap_pop_push h x func
  | HeapifyAll => __min_heapify_all h func
  end.

(** The states after each call of a sequence of operations. *)
Fixpoint run_ops func (ops : list op) h : M (list (min_heap T)) :=
  match ops with
  | [] => ret []
  | o :: os =>
      let* h' := run_op func o h in
      let* hs := run_ops func os h' in
      ret (h' :: hs)
  end.

(** Insert the elements of [l] one at a time. *)
Fixpoint push_all func (l : list T) h : M (min_heap T) :=
  match l with
  | [] => ret h
  | x :: l' => let* h' := __min_heap_push h x func in push_all func l' h'
  end.

(** [n] rounds of reading the element at index 0 and then popping. *)
Fixpoint extract func (n : nat) h : M (list T) :=
  match n with
  | O => ret []
  | S n' =>
      let* x := load (data h) 0 in
      let* h' := __min_heap_pop h func in
      let* rest := extract func n' h' in
      ret (x :: rest)
  end.

(** Extraction followed by insertion, as two separate calls. *)
Definition pop_then_push func h (element : T) : M (min_heap T) :=
  let* h' := __min_heap_pop h func in __min_heap_push h' element func.

(** The elements [l] placed directly into the buffer (followed by unused
    cells [slack]) with [nr] set to their number, [heapify_all], and full
    extraction. *)
Definition extract_after_heapify_all func (l slack : list T) : M (list T) :=
  let h := {| data := l ++ slack; nr := Z.of_nat (length l);
              size := Z.of_nat (length (l ++ slack)) |} in
  let* h' := __min_heapify_all h func in
  extract func (length l) h'.

(** The elements [l] pushed one at a time into an empty heap over the
    buffer [d0], and full extraction. *)
Definition extract_after_pushes func (l d0 : list T) : M (list T) :=
  let h := {| data := d0; nr := 0; size := Z.of_nat (length d0) |} in
  let* h' := push_all func l h in
  extract func (length l) h'.

(** [n] rounds of reading the element at index 0 and then popping, keeping
    the heap that is left. *)
Fixpoint pop_n func (n : nat) h : M (list T * min_heap T) :=
  match n with
  | O => ret ([], h)
  | S n' =>
      let* x := load (data h) 0 in
      let* h' := __min_heap_pop h func in
      let* r := pop_n func n' h' in
      ret (x :: fst r, snd r)
  end.

(** *** Notions used in the proofs *)

(** The part of the contract of [less] that sifting down relies on. *)
Definition strict_order func : Prop :=
  (forall a, less func a a = false) /\
  (forall a b c, less func a b = true -> less func b c = true -> less func a c = true).

(** [c] is the child of [p] the descent steps into when [p] has two children. *)
Definition picked func d (p c : Z) : Prop :=
  exists x y, d !! Z.to_nat (2 * p + 1) = Some x /\ d !! Z.to_nat (2 * p + 2) = Some y /\
              c = (if less func x y then 2 * p + 1 else 2 * p + 2).

(** One level of the candidate path: the picked child, or the only child. *)
Definition step func d (n p c : Z) : Prop :=
  (2 * p + 2 < n /\ picked func d p c) \/ (2 * p + 2 = n /\ c = 2 * p + 1).

(** The buffer after [t] rounds of the shift loop that ends at [j]: the
    cell [j] holds the element that was [t] levels above it, and each of
    the [t] cells above [j] holds the element that was one level below. *)
Definition rotated d0 (j : Z) (t : nat) d : Prop :=
  length d = length d0 /\
  d !! Z.to_nat j = d0 !! Z.to_nat (up t j) /\
  (forall s, (1 <= s <= t)%nat ->
     d !! Z.to_nat (up s j) = d0 !! Z.to_nat (up (s - 1) j)) /\
  (forall q : nat, (forall s, (s <= t)%nat -> q <> Z.to_nat (up s j)) -> d !! q = d0 !! q).

(** The first [n] cells are permuted, the others untouched. *)
Definition same_live (n : Z) d0 d : Prop :=
  length d = length d0 /\
  take (Z.to_nat n) d ≡ₚ take (Z.to_nat n) d0 /\
  drop (Z.to_nat n) d = drop (Z.to_nat n) d0.

(** What one call of [__min_heapify] does, phase by phase: [L0] is where
    the descent loop stops after [N0] levels, [L] the leaf of the candidate
    path, [N] its length, [m] the number of levels the backtracking climbs
    with [c] comparisons. *)
Record heapify_run func h (pos : Z) g (L0 : Z) (N0 : nat) (L : Z) (N m c : nat)
       (h' : min_heap T) : Prop := {
  run_descend :
    descend (S (length (data h))) func (data h) (nr h) pos g = Some (L0, add_less N0 g);
  run_descend_up : up N0 L0 = pos;
  run_descend_chain : chain L0 N0;
  run_leaf : last_leaf (nr h) L0 = L;
  run_resting :
    resting_index h pos func g = Some (up m L, add_less (c + N0) g);
  run_heapify :
    __min_heapify h pos func g = Some (h', add_swp (N - m) (add_less (c + N0) g));
  run_up : up N L = pos;
  run_chain : chain L N;
  run_L : L < nr h;
  run_is_leaf : nr h <= 2 * L + 1;
  run_steps : forall k, (k < N)%nat -> step func (data h) (nr h) (up (S k) L) (up k L);
  run_m : (m <= N)%nat;
  run_below : forall k, (k < m)%nat ->
    exists r y, data h !! Z.to_nat pos = Some r /\
                data h !! Z.to_nat (up k L) = Some y /\ less func r y = true;
  run_stop : m = N \/
    exists r y, data h !! Z.to_nat pos = Some r /\
                data h !! Z.to_nat (up m L) = Some y /\ less func r y = false;
  run_nr : nr h' = nr h;
  run_size : size h' = size h;
  run_rotated : rotated (data h) (up m L) (N - m) (data h');
  run_same_live : same_live (nr h) (data h) (data h')
}.

(** The heap property with the cell [pos] possibly too small for its
    ancestors: every edge not ending in [pos] is in order, and the children
    of [pos] are in order with the parent of [pos]. *)
Definition heap_except func d (n pos : Z) : Prop :=
  (forall p c x y, is_child p c -> c < n -> c <> pos ->
     d !! Z.to_nat p = Some x -> d !! Z.to_nat c = Some y -> less func y x = false) /\
  (forall c x y, 1 <= pos -> is_child pos c -> c < n ->
     d !! Z.to_nat ((pos - 1) / 2) = Some x -> d !! Z.to_nat c = Some y ->
     less func y x = false).

(** The comparisons [__min_heapify_all] may still make, up to a factor 2,
    once it has dealt with every index from [i] on, in a heap whose deepest
    element has depth [D]: the sum of [D - depth p] over [p < i] is
    [floyd_potential D 0 - floyd_potential D i]. *)
Definition floyd_potential (D i : Z) : Z :=
  2 ^ (D + 1) - (i + 1) * (D - depth i) - 2 ^ (depth i + 1).

End Notions.

(** ** Concrete instances *)

(** Integers under [<], exchanged by value. *)
Definition int_callbacks : min_heap_callbacks Z :=
  {| less := Z.ltb; swp := fun a b => (b, a) |}.

(** Records compared by their first component only: a strict order with ties. *)
Definition key_callbacks : min_heap_callbacks (Z * Z) :=
  {| less := fun a b => fst a <? fst b; swp := fun a b => (b, a) |}.

Definition empty_log : log := {| n_less := 0; n_swp := 0; warned := [] |}.

(** Three elements of which only [Lo] and [Hi] are comparable: a strict
    partial order that is not a strict weak order. *)
Inductive tri := Lo | Hi | Other.

Definition tri_callbacks : min_heap_callbacks tri :=
  {| less := fun a b => match a, b with Lo, Hi => true | _, _ => false end;
     swp := fun a b => (b, a) |}.

(** * Properties *)

(** ** Index arithmetic *)

Lemma int_wrap_small z : -2147483648 <= z <= INT_MAX -> int_wrap z = z.
Proof.
  unfold int_wrap, INT_MAX. intros Hz.
  rewrite Z.mod_small by lia. lia.
Qed.

Lemma left_of_eq i : 0 <= i -> 2 * i + 2 <= INT_MAX -> left_of i = 2 * i + 1.
Proof.
  unfold left_of, INT_MAX. intros H0 H1.
  rewrite (int_wrap_small (i * 2)) by (unfold INT_MAX; lia).
  rewrite int_wrap_small by (unfold INT_MAX; lia). lia.
Qed.

Lemma right_of_eq i : 0 <= i -> 2 * i + 2 <= INT_MAX -> right_of i = 2 * i + 2.
Proof.
  unfold right_of, INT_MAX. intros H0 H1.
  rewrite (int_wrap_small (i * 2)) by (unfold INT_MAX; lia).
  rewrite int_wrap_small by (unfold INT_MAX; lia). lia.
Qed.

Lemma parent_of_eq i : 1 <= i <= INT_MAX -> parent_of i = (i - 1) / 2.
Proof.
  unfold parent_of, INT_MAX. intros Hi.
  rewrite (int_wrap_small (i - 1)) by (unfold INT_MAX; lia).
  rewrite Z.quot_div_nonneg by lia.
  assert (0 <= (i - 1) / 2 <= i - 1).
  { split; [apply Z.div_pos; lia | apply Z.div_le_upper_bound; lia]. }
  rewrite int_wrap_small by (unfold INT_MAX; lia). reflexivity.
Qed.

Lemma par_child p c : is_child p c -> (c - 1) / 2 = p.
Proof.
  intros [Hp [-> | ->]].
  - replace (2 * p + 1 - 1) with (p * 2) by lia. apply Z.div_mul. lia.
  - replace (2 * p + 2 - 1) with (1 + p * 2) by lia.
    rewrite Z.div_add by lia. reflexivity.
Qed.

Lemma child_of_par i : 1 <= i -> is_child ((i - 1) / 2) i.
Proof.
  intros Hi. split.
  - apply Z.div_pos; lia.
  - pose proof (Z.div_mod (i - 1) 2 ltac:(lia)) as Hdm.
    pose proof (Z.mod_pos_bound (i - 1) 2 ltac:(lia)) as Hb.
    lia.
Qed.

Lemma par_lt i : 1 <= i -> 0 <= (i - 1) / 2 < i.
Proof.
  intros Hi. destruct (child_of_par i Hi) as [H0 H1]. lia.
Qed.

Lemma depth_child p c : is_child p c -> depth c = depth p + 1.
Proof.
  unfold depth. intros [Hp [-> | ->]].
  - replace (2 * p + 1 + 1) with (2 * (p + 1)) by lia.
    rewrite Z.log2_double by lia. lia.
  - replace (2 * p + 2 + 1) with (2 * (p + 1) + 1) by lia.
    rewrite Z.log2_succ_double by lia. lia.
Qed.

Lemma up_S k j : up (S k) j = (up k j - 1) / 2.
Proof. reflexivity. Qed.

Lemma up_par k j : up k ((j - 1) / 2) = up (S k) j.
Proof. unfold up. rewrite Nat.iter_succ_r. reflexivity. Qed.

Lemma up_add a b j : up (a + b) j = up a (up b j).
Proof. unfold up. apply Nat.iter_add. Qed.

Lemma chain_mono L N k : chain L N -> (k <= N)%nat -> chain L k.
Proof. intros H Hk m Hm. apply H. lia. Qed.

Lemma chain_up L N m : chain L N -> (m <= N)%nat -> chain (up m L) (N - m).
Proof.
  intros H Hm k Hk. rewrite <- !up_add.
  replace (S k + m)%nat with (S (k + m)) by lia. apply H. lia.
Qed.

Lemma chain_decr L N : chain L N ->
  forall a b, (a < b)%nat -> (b <= N)%nat -> 0 <= up b L < up a L.
Proof.
  intros H a b Hab. induction b as [|b IH]; [lia|]. intros HbN.
  destruct (H b ltac:(lia)) as [H0 Hc].
  destruct (decide (a = b)) as [->|Hne]; [lia|].
  specialize (IH ltac:(lia) ltac:(lia)). lia.
Qed.

Lemma chain_top_le L N k : chain L N -> (k <= N)%nat -> up N L <= up k L.
Proof.
  intros H Hk. destruct (decide (k = N)) as [->|Hne]; [lia|].
  pose proof (chain_decr L N H k N ltac:(lia) ltac:(lia)). lia.
Qed.

Lemma chain_inj L N a b : chain L N -> (a <= N)%nat -> (b <= N)%nat ->
  up a L = up b L -> a = b.
Proof.
  intros H Ha Hb Heq.
  destruct (Nat.lt_trichotomy a b) as [Hlt | [-> | Hlt]]; [|reflexivity|].
  - pose proof (chain_decr L N H a b Hlt Hb). lia.
  - pose proof (chain_decr L N H b a Hlt Ha). lia.
Qed.

Lemma chain_depth L N : chain L N -> depth L = depth (up N L) + Z.of_nat N.
Proof.
  induction N as [|N IH]; intro H.
  - simpl. lia.
  - rewrite IH by (eapply chain_mono; [exact H | lia]).
    rewrite (depth_child _ _ (H N ltac:(lia))). lia.
Qed.

Lemma up_cons p c N : is_child p c -> up (S N) c = up N p.
Proof. intros Hc. rewrite <- up_par. rewrite (par_child _ _ Hc). reflexivity. Qed.

Lemma chain_cons p c N : is_child p c -> chain p N -> chain c (S N).
Proof.
  intros Hc H k Hk. destruct k as [|k].
  - simpl. rewrite (par_child _ _ Hc). exact Hc.
  - rewrite (up_cons p c (S k) Hc), (up_cons p c k Hc). apply H. lia.
Qed.

Lemma on_chain_dec (q L : Z) (N : nat) :
  (exists k, (k <= N)%nat /\ q = up k L) \/ (forall k, (k <= N)%nat -> q <> up k L).
Proof.
  induction N as [|N [[k [Hk ->]] | Hno]].
  - destruct (decide (q = L)) as [->|Hne].
    + left. exists 0%nat. split; [lia | reflexivity].
    + right. intros k Hk. replace k with 0%nat by lia. exact Hne.
  - left. exists k. split; [lia | reflexivity].
  - destruct (decide (q = up (S N) L)) as [->|Hne].
    + left. exists (S N). split; [lia | reflexivity].
    + right. intros k Hk. destruct (decide (k = S N)) as [->|Hk']; [exact Hne|].
      apply Hno. lia.
Qed.

(** ** The ghost log *)

Lemma add_less_0 g : add_less 0 g = g.
Proof. destruct g; reflexivity. Qed.

Lemma add_swp_0 g : add_swp 0 g = g.
Proof. destruct g; reflexivity. Qed.

Lemma add_less_S k g : add_less k (add_less 1 g) = add_less (S k) g.
Proof. unfold add_less; simpl. f_equal. lia. Qed.

Lemma add_swp_S k g : add_swp k (add_swp 1 g) = add_swp (S k) g.
Proof. unfold add_swp; simpl. f_equal. lia. Qed.

Lemma add_less_add a b g : add_less a (add_less b g) = add_less (a + b) g.
Proof. unfold add_less; simpl. f_equal. lia. Qed.

(** ** Exchanging two cells *)

Section Cells.
Context {T : Type}.
Implicit Types (d l : list T).

Lemma swap_cells_perm l (i j : nat) a b :
  l !! i = Some a -> l !! j = Some b -> <[j := a]> (<[i := b]> l) ≡ₚ l.
Proof.
  intros Hi Hj.
  destruct (decide (i = j)) as [->|Hne].
  - rewrite list_insert_insert_eq. rewrite list_insert_id; [reflexivity | congruence].
  - apply Permutation_inj. split; [by rewrite !length_insert|].
    exists (fun k => if decide (k = i) then j else if decide (k = j) then i else k).
    split.
    + intros x y. repeat case_decide; intros; subst; congruence.
    + intros k. pose proof (lookup_lt_Some _ _ _ Hi). pose proof (lookup_lt_Some _ _ _ Hj).
      repeat case_decide; subst.
      * rewrite list_lookup_insert_ne by done.
        rewrite list_lookup_insert_eq by done. congruence.
      * rewrite list_lookup_insert_eq by (by rewrite length_insert). congruence.
      * rewrite !list_lookup_insert_ne by done. reflexivity.
Qed.

Lemma swap_cells_take l (n i j : nat) a b :
  (i < n)%nat -> (j < n)%nat -> l !! i = Some a -> l !! j = Some b ->
  take n (<[j := a]> (<[i := b]> l)) ≡ₚ take n l.
Proof.
  intros Hi Hj Ha Hb.
  rewrite !take_insert_lt by done.
  apply swap_cells_perm; by rewrite lookup_take_lt.
Qed.

Lemma swap_cells_drop l (n i j : nat) a b :
  (i < n)%nat -> (j < n)%nat -> drop n (<[j := a]> (<[i := b]> l)) = drop n l.
Proof. intros Hi Hj. by rewrite !drop_insert_lt. Qed.

(** *** The primitives of the embedding *)

Context (func : min_heap_callbacks T).

Lemma load_ok d i x g :
  0 <= i -> d !! Z.to_nat i = Some x -> load d i g = Some (x, g).
Proof.
  intros Hi Hx. unfold load.
  destruct (Z.leb_spec 0 i); [|lia]. by rewrite Hx.
Qed.

Lemma store_ok d i x g :
  0 <= i < Z.of_nat (length d) -> store d i x g = Some (<[Z.to_nat i := x]> d, g).
Proof.
  intros Hi. unfold store.
  destruct (Z.leb_spec 0 i); [|lia].
  destruct (Z.ltb_spec i (Z.of_nat (length d))); [|lia]. reflexivity.
Qed.

Lemma call_less_ok d i j a b g :
  0 <= i -> 0 <= j -> d !! Z.to_nat i = Some a -> d !! Z.to_nat j = Some b ->
  call_less func d i j g = Some (less func a b, add_less 1 g).
Proof.
  intros Hi Hj Ha Hb. unfold call_less, bind.
  rewrite (load_ok d i a), (load_ok d j b) by done. reflexivity.
Qed.

Lemma call_swp_ok d i j a b g :
  swp_exchanges func ->
  0 <= i -> 0 <= j -> d !! Z.to_nat i = Some a -> d !! Z.to_nat j = Some b ->
  call_swp func d i j g
  = Some (<[Z.to_nat j := a]> (<[Z.to_nat i := b]> d), add_swp 1 g).
Proof.
  intros Hswp Hi Hj Ha Hb. unfold call_swp, bind.
  rewrite (load_ok d i a), (load_ok d j b) by done. simpl.
  rewrite !Hswp. simpl.
  pose proof (lookup_lt_Some _ _ _ Ha). pose proof (lookup_lt_Some _ _ _ Hb).
  rewrite store_ok by lia.
  rewrite store_ok by (rewrite length_insert; lia). reflexivity.
Qed.

Lemma cell_exists d i : 0 <= i < Z.of_nat (length d) -> exists x, d !! Z.to_nat i = Some x.
Proof.
  intros Hi. apply lookup_lt_is_Some_2. lia.
Qed.

End Cells.

(** ** The three loops of [__min_heapify] *)

Section Heapify.
Context {T : Type} (func : min_heap_callbacks T).
Implicit Types (d : list T) (g : log).

Lemma picked_child d p c : 0 <= p -> picked func d p c -> is_child p c.
Proof.
  intros Hp (x & y & _ & _ & ->). split; [exact Hp|].
  destruct (less func x y); auto.
Qed.

Lemma step_child d n p c : 0 <= p -> step func d n p c -> is_child p c /\ c < n.
Proof.
  intros Hp [[Hlt Hpk] | [Heq ->]].
  - split; [by eapply picked_child|].
    destruct Hpk as (x & y & _ & _ & ->). destruct (less func x y); lia.
  - split; [split; auto | lia].
Qed.

Lemma descend_spec fuel d n : n <= Z.of_nat (length d) -> 2 * n <= INT_MAX ->
  forall i g, 0 <= i < n -> n - i < Z.of_nat fuel ->
  exists L N,
    descend fuel func d n i g = Some (L, add_less N g) /\
    up N L = i /\ chain L N /\ L < n /\ n <= 2 * L + 2 /\
    (forall k, (k < N)%nat -> 2 * up (S k) L + 2 < n /\ picked func d (up (S k) L) (up k L)).
Proof.
  intros Hlen Hmax. induction fuel as [|fuel IH]; intros i g Hi Hfuel; [lia|].
  cbn [descend].
  rewrite right_of_eq, left_of_eq by lia.
  rewrite Z.geb_leb. destruct (Z.leb_spec n (2 * i + 2)) as [Hge | Hlt].
  - exists i, 0%nat. unfold ret. rewrite add_less_0.
    repeat split; lia.
  - destruct (cell_exists d (2 * i + 1) ltac:(lia)) as [x Hx].
    destruct (cell_exists d (2 * i + 2) ltac:(lia)) as [y Hy].
    unfold bind. rewrite (call_less_ok func d _ _ x y) by (done || lia).
    set (c := if less func x y then 2 * i + 1 else 2 * i + 2).
    assert (Hpk : picked func d i c) by (exists x, y; done).
    assert (Hc : is_child i c) by (apply (picked_child d); [lia | done]).
    assert (Hcn : i < c < n) by (subst c; destruct (less func x y); lia).
    destruct (IH c (add_less 1 g) ltac:(lia) ltac:(lia))
      as (L & N & Hrun & Hup & Hch & HL & Hleaf & Hsteps).
    exists L, (S N). rewrite Hrun, add_less_S.
    assert (HupS : up (S N) L = i) by (rewrite up_S, Hup; by apply par_child).
    split_and!; try done.
    + intros k Hk. destruct (decide (k = N)) as [->|Hne].
      * rewrite HupS, Hup. exact Hc.
      * apply Hch. lia.
    + intros k Hk. destruct (decide (k = N)) as [->|Hne].
      * by rewrite HupS, Hup.
      * apply Hsteps. lia.
Qed.

Lemma last_leaf_eq n L : 0 <= L -> 2 * L + 2 <= INT_MAX ->
  last_leaf n L = if decide (2 * L + 2 = n) then 2 * L + 1 else L.
Proof.
  intros H0 H1. unfold last_leaf. rewrite right_of_eq, left_of_eq by lia.
  destruct (Z.eqb_spec (2 * L + 2) n); case_decide; done.
Qed.

(** The candidate path from [pos] to a leaf. *)
Lemma leaf_path_spec d n pos g :
  0 <= pos < n -> n <= Z.of_nat (length d) -> 2 * n <= INT_MAX ->
  exists L0 N0 L N,
    descend (S (length d)) func d n pos g = Some (L0, add_less N0 g) /\
    up N0 L0 = pos /\ chain L0 N0 /\
    last_leaf n L0 = L /\
    up N L = pos /\ chain L N /\ L < n /\ n <= 2 * L + 1 /\
    (forall k, (k < N)%nat -> step func d n (up (S k) L) (up k L)).
Proof.
  intros Hpos Hlen Hmax.
  destruct (descend_spec (S (length d)) d n Hlen Hmax pos g Hpos ltac:(lia))
    as (L0 & N0 & Hrun & Hup & Hch & HL & Hleaf & Hsteps).
  assert (HposL : pos <= L0).
  { rewrite <- Hup. apply (chain_top_le L0 N0 0); [done | lia]. }
  exists L0, N0. rewrite last_leaf_eq by lia.
  case_decide as Hone.
  - exists (2 * L0 + 1), (S N0).
    assert (Hc : is_child L0 (2 * L0 + 1)) by (split; [lia | auto]).
    split_and!; try done; try lia.
    + by rewrite (up_cons L0).
    + by apply (chain_cons L0).
    + intros k Hk. destruct k as [|k].
      * right. rewrite up_S. simpl. rewrite (par_child _ _ Hc). done.
      * rewrite (up_cons L0 _ (S k) Hc), (up_cons L0 _ k Hc).
        left. apply Hsteps. lia.
  - exists L0, N0. split_and!; try done; try lia.
    intros k Hk. left. by apply Hsteps.
Qed.

Lemma backtrack_spec d pos root N : 0 <= pos -> d !! Z.to_nat pos = Some root ->
  forall fuel L g,
    chain L N -> up N L = pos -> L < Z.of_nat (length d) -> L <= INT_MAX ->
    (N < fuel)%nat ->
    exists m c, (m <= N)%nat /\
      backtrack fuel func d pos L g = Some (up m L, add_less c g) /\
      (forall k, (k < m)%nat ->
         exists y, d !! Z.to_nat (up k L) = Some y /\ less func root y = true) /\
      (m = N \/ exists y, d !! Z.to_nat (up m L) = Some y /\ less func root y = false).
Proof.
  intros Hpos Hroot. induction N as [|N IH]; intros fuel L g Hch Hup HL Hmax Hfuel;
    (destruct fuel as [|fuel]; [lia|]); cbn [backtrack].
  - simpl in Hup. subst L. rewrite Z.eqb_refl.
    exists 0%nat, 0%nat. unfold ret. rewrite add_less_0.
    split_and!; [lia | done | intros k Hk; lia | by left].
  - pose proof (chain_decr L (S N) Hch 0 (S N) ltac:(lia) ltac:(lia)) as Hdec.
    rewrite Hup in Hdec. simpl in Hdec.
    destruct (Z.eqb_spec L pos) as [->|Hne]; [lia|].
    destruct (cell_exists d L ltac:(lia)) as [y Hy].
    unfold bind. rewrite (call_less_ok func d _ _ root y) by (done || lia).
    destruct (less func root y) eqn:Hless.
    + rewrite parent_of_eq by lia.
      pose proof (par_lt L ltac:(lia)) as Hpar.
      destruct (IH fuel ((L - 1) / 2) (add_less 1 g)) as (m & c & Hm & Hrun & Hbelow & Hstop).
      * apply (chain_up L (S N) 1) in Hch; [|lia].
        replace (S N - 1)%nat with N in Hch by lia. exact Hch.
      * by rewrite up_par.
      * lia.
      * lia.
      * lia.
      * exists (S m), (S c). rewrite Hrun, add_less_S, up_par.
        split_and!; [lia | done | |].
        -- intros k Hk. destruct k as [|k]; [by exists y|].
           rewrite <- up_par. apply Hbelow. lia.
        -- destruct Hstop as [-> | Hstop]; [by left | right].
           by rewrite <- up_par.
    + exists 0%nat, 1%nat. unfold ret.
      split_and!; [lia | done | intros k Hk; lia | right; by exists y].
Qed.

End Heapify.

Lemma chain_range L N s : chain L N -> 0 <= up N L -> (s <= N)%nat ->
  up N L <= up s L <= L.
Proof.
  intros Hch H0 Hs. split; [by apply chain_top_le|].
  destruct s as [|s]; [simpl; lia|].
  pose proof (chain_decr L N Hch 0 (S s) ltac:(lia) Hs) as H. simpl in H. simpl. lia.
Qed.

Section Shift.
Context {T : Type} (func : min_heap_callbacks T).
Implicit Types (d : list T) (g : log).

Lemma same_live_refl n d : same_live n d d.
Proof. by split_and!. Qed.

Lemma same_live_trans n d0 d1 d2 :
  same_live n d0 d1 -> same_live n d1 d2 -> same_live n d0 d2.
Proof.
  intros (H1 & H2 & H3) (H4 & H5 & H6). split_and!.
  - congruence.
  - by rewrite H5.
  - congruence.
Qed.

Lemma rotated_0 d j : rotated d j 0 d.
Proof.
  split_and!; try done.
  intros s Hs. lia.
Qed.

Lemma shift_spec d0 j K n :
  swp_exchanges func ->
  chain j K -> 0 <= up K j -> j < n -> n <= Z.of_nat (length d0) -> j <= INT_MAX ->
  forall rem t fuel d g,
    (t + rem = K)%nat -> (rem < fuel)%nat -> rotated d0 j t d -> same_live n d0 d ->
    exists d',
      shift fuel func d (up K j) (up t j) j g = Some (d', add_swp rem g) /\
      rotated d0 j K d' /\ same_live n d0 d'.
Proof.
  intros Hswp Hch Htop Hjn Hlen Hmax.
  induction rem as [|rem IH]; intros t fuel d g Ht Hfuel Hrot Hlive;
    (destruct fuel as [|fuel]; [lia|]); cbn [shift].
  - replace t with K by lia. rewrite Z.eqb_refl. exists d. unfold ret.
    rewrite add_swp_0. replace K with t by lia. done.
  - pose proof (chain_decr j K Hch t K ltac:(lia) ltac:(lia)) as Hdec.
    pose proof (chain_range j K t Hch Htop ltac:(lia)) as Hrt.
    pose proof (chain_range j K (S t) Hch Htop ltac:(lia)) as HrS.
    pose proof (chain_decr j K Hch t (S t) ltac:(lia) ltac:(lia)) as HdS.
    destruct (Z.eqb_spec (up t j) (up K j)) as [Heq|_]; [lia|].
    rewrite parent_of_eq by lia. rewrite <- up_S.
    destruct Hrot as (Hl & Hj & Hpath & Hother).
    assert (Hfresh : forall s, (s <= t)%nat -> Z.to_nat (up (S t) j) <> Z.to_nat (up s j)).
    { intros s Hs Heq.
      pose proof (chain_range j K s Hch Htop ltac:(lia)).
      assert (up (S t) j = up s j) as Heq' by lia.
      apply (chain_inj j K) in Heq'; [lia | done | lia | lia]. }
    destruct (cell_exists d0 (up (S t) j) ltac:(lia)) as [a Ha].
    destruct (cell_exists d0 (up t j) ltac:(lia)) as [b Hb].
    assert (Ha' : d !! Z.to_nat (up (S t) j) = Some a) by (by rewrite Hother).
    assert (Hb' : d !! Z.to_nat j = Some b) by congruence.
    unfold bind. rewrite (call_swp_ok func d _ _ a b) by (done || lia).
    assert (Hpj : Z.to_nat (up (S t) j) <> Z.to_nat j).
    { apply (Hfresh 0%nat). lia. }
    assert (HpL : (Z.to_nat (up (S t) j) < length d)%nat) by lia.
    assert (HjL : (Z.to_nat j < length d)%nat) by lia.
    destruct (IH (S t) fuel (<[Z.to_nat j:=a]> (<[Z.to_nat (up (S t) j):=b]> d)) (add_swp 1 g))
      as (d' & Hrun & Hrot' & Hlive'); [lia | lia | | |].
    + split_and!.
      * by rewrite !length_insert.
      * rewrite list_lookup_insert_eq by (by rewrite length_insert). done.
      * intros s Hs. destruct (decide (s = S t)) as [->|Hne].
        -- rewrite list_lookup_insert_ne by done.
           rewrite list_lookup_insert_eq by done.
           replace (S t - 1)%nat with t by lia. done.
        -- pose proof (chain_range j K s Hch Htop ltac:(lia)).
           assert (Z.to_nat (up s j) <> Z.to_nat j).
           { intros Heq. assert (up s j = up 0 j) as Heq' by (simpl; lia).
             apply (chain_inj j K) in Heq'; lia || done. }
           assert (Z.to_nat (up (S t) j) <> Z.to_nat (up s j)) by (apply Hfresh; lia).
           rewrite !list_lookup_insert_ne by done. apply Hpath. lia.
      * intros q Hq.
        rewrite !list_lookup_insert_ne.
        -- apply Hother. intros s Hs. apply Hq. lia.
        -- intros Heq. apply (Hq (S t)); [lia | done].
        -- intros Heq. apply (Hq 0%nat); [lia | done].
    + eapply same_live_trans; [exact Hlive|].
      split_and!.
      * by rewrite !length_insert.
      * apply swap_cells_take; try done; lia.
      * apply swap_cells_drop; lia.
    + exists d'. rewrite Hrun, add_swp_S. done.
Qed.

End Shift.

Lemma chain_len L N : chain L N -> forall k, (k <= N)%nat -> up k L <= L - Z.of_nat k.
Proof.
  intros Hch. induction k as [|k IH]; intros Hk; [simpl; lia|].
  pose proof (chain_decr L N Hch k (S k) ltac:(lia) Hk). specialize (IH ltac:(lia)). lia.
Qed.

Section HeapifySpec.
Context {T : Type} (func : min_heap_callbacks T).
Implicit Types (d : list T) (g : log) (h : min_heap T).

Lemma heapify_spec h pos g :
  swp_exchanges func -> heap_wf h -> 0 <= pos < nr h ->
  exists L0 N0 L N m c h', heapify_run func h pos g L0 N0 L N m c h'.
Proof.
  intros Hswp (Hnr & Hlen & Hmax) Hpos.
  destruct (leaf_path_spec func (data h) (nr h) pos g Hpos ltac:(lia) ltac:(lia))
    as (L0 & N0 & L & N & Hdesc & Hup0 & Hch0 & Hleaf & Hup & Hch & HL & Hisleaf & Hsteps).
  destruct (cell_exists (data h) pos ltac:(lia)) as [root Hroot].
  pose proof (chain_len L N Hch N ltac:(lia)) as HN. rewrite Hup in HN.
  destruct (backtrack_spec func (data h) pos root N ltac:(lia) Hroot
              (S (length (data h))) L (add_less N0 g) Hch Hup ltac:(lia)
              ltac:(unfold INT_MAX in *; lia) ltac:(lia))
    as (m & c & Hm & Hback & Hbelow & Hstop).
  assert (Hrest : resting_index h pos func g = Some (up m L, add_less (c + N0) g)).
  { unfold resting_index, bind. rewrite Hdesc, Hleaf, Hback, add_less_add. done. }
  pose proof (chain_range L N m Hch ltac:(lia) Hm) as Hrm.
  destruct (shift_spec func (data h) (up m L) (N - m) (nr h) Hswp) with
    (rem := (N - m)%nat) (t := 0%nat) (fuel := S (length (data h)))
    (d := data h) (g := add_less (c + N0) g)
    as (d' & Hshift & Hrot & Hlive).
  - by apply chain_up.
  - rewrite <- up_add. replace (N - m + m)%nat with N by lia. lia.
  - lia.
  - lia.
  - unfold INT_MAX in *. lia.
  - lia.
  - lia.
  - apply rotated_0.
  - apply same_live_refl.
  - exists L0, N0, L, N, m, c, {| data := d'; nr := nr h; size := size h |}.
    split; try done.
    + unfold __min_heapify, bind. rewrite Hrest.
      rewrite <- up_add in Hshift.
      replace (N - m + m)%nat with N in Hshift by lia.
      rewrite Hup in Hshift. change (up 0 (up m L)) with (up m L) in Hshift.
      rewrite Hshift. done.
    + intros k Hk. destruct (Hbelow k Hk) as (y & Hy & Hlt). by exists root, y.
    + destruct Hstop as [->|(y & Hy & Hlt)]; [by left | right; by exists root, y].
Qed.

End HeapifySpec.

(** ** [__min_heapify] restores the heap property below [pos] *)

Section HeapifyOrder.
Context {T : Type} (func : min_heap_callbacks T).
Implicit Types (d : list T) (g : log) (h : min_heap T).

Lemma swo_strict : strict_weak_order func -> strict_order func.
Proof. intros [H1 H2 _]. by split. Qed.

Lemma less_asym a b : strict_order func -> less func a b = true -> less func b a = false.
Proof.
  intros [Hirr Htr] Hab. destruct (less func b a) eqn:Hba; [|done].
  pose proof (Htr _ _ _ Hab Hba) as Haa. by rewrite Hirr in Haa.
Qed.

(** The sibling of the child the path steps into does not compare less
    than that child. *)
Lemma step_best d n p q : strict_order func -> step func d n p q ->
  forall c x y, is_child p c -> c < n -> c <> q ->
    d !! Z.to_nat q = Some x -> d !! Z.to_nat c = Some y -> less func y x = false.
Proof.
  intros Hso [[Hlt (x1 & y1 & Hx1 & Hy1 & Hq)] | [Hone ->]] c x y [Hp Hc] Hcn Hne Hx Hy.
  - destruct (less func x1 y1) eqn:Hl.
    + assert (c = 2 * p + 2) as -> by lia. subst q.
      apply less_asym; [done|]. congruence.
    + assert (c = 2 * p + 1) as -> by lia. subst q. congruence.
  - lia.
Qed.

Lemma heapify_heap_from h pos g L0 N0 L N m c h' :
  strict_order func -> heap_wf h -> 0 <= pos < nr h ->
  heapify_run func h pos g L0 N0 L N m c h' ->
  heap_from func (data h) (nr h) (pos + 1) ->
  heap_from func (data h') (nr h) pos.
Proof.
  intros Hso (Hnr & Hlen & Hmax) Hpos Hrun Hheap.
  destruct Hrun as [_ _ _ _ _ _ Hup Hch HL Hleaf Hsteps Hm Hbelow Hstop _ _ Hrot _].
  set (j := up m L) in *. set (K := (N - m)%nat) in *.
  destruct Hrot as (Hl & Hj & Hpath & Hother).
  assert (HchJ : chain j K) by (by apply chain_up).
  assert (HupJ : up K j = pos).
  { unfold j, K. rewrite <- up_add. replace (N - m + m)%nat with N by lia. done. }
  assert (HrJ : forall s, (s <= K)%nat -> pos <= up s j <= j).
  { intros s Hs. rewrite <- HupJ. apply chain_range; [done | lia | done]. }
  assert (HjL : pos <= j <= L).
  { unfold j. rewrite <- Hup. apply chain_range; [done | lia | done]. }
  rewrite HupJ in Hj.
  intros p q x y Hp Hpq Hqn Hx Hy.
  assert (Hpq' := Hpq). destruct Hpq' as [Hp0 Hq].
  destruct (on_chain_dec p j K) as [(s & Hs & ->) | Hoff].
  - destruct s as [|s].
    + (* the resting index itself *)
      change (up 0 j) with j in *.
      assert (Hyq : data h !! Z.to_nat q = Some y).
      { rewrite <- Hother; [done|]. intros s Hs'. specialize (HrJ s Hs'). lia. }
      destruct m as [|m].
      { unfold j in *. simpl in *. lia. }
      destruct (Hbelow m ltac:(lia)) as (r & z & Hr & Hz & Hrz).
      assert (x = r) as -> by congruence.
      pose proof (Hsteps m ltac:(lia)) as Hst. fold j in Hst.
      destruct (decide (q = up m L)) as [->|Hne].
      * assert (y = z) as -> by congruence. by apply less_asym.
      * pose proof (step_best _ _ _ _ Hso Hst q z y Hpq Hqn Hne Hz Hyq) as Hyz.
        destruct (less func y r) eqn:Hyr; [|done].
        destruct Hso as [_ Htr]. rewrite (Htr _ _ _ Hyr Hrz) in Hyz. done.
    + (* a cell above the resting index *)
      pose proof (HchJ s ltac:(lia)) as Hcs.
      rewrite (Hpath (S s) ltac:(lia)) in Hx.
      replace (S s - 1)%nat with s in Hx by lia.
      destruct (decide (q = up s j)) as [->|Hne].
      * destruct s as [|s].
        -- change (up 0 j) with j in *.
           destruct Hstop as [-> | (r & z & Hr & Hz & Hrz)]; [lia|].
           fold j in Hz. congruence.
        -- rewrite (Hpath (S s) ltac:(lia)) in Hy.
           replace (S s - 1)%nat with s in Hy by lia.
           pose proof (chain_decr j K HchJ (S s) K ltac:(lia) ltac:(lia)) as Hd.
           pose proof (HrJ s ltac:(lia)).
           apply (Hheap (up (S s) j) (up s j) x y); try done; try lia.
           apply HchJ. lia.
      * assert (Hyq : data h !! Z.to_nat q = Some y).
        { rewrite <- Hother; [done|]. intros s' Hs' Heq.
          pose proof (HrJ s' Hs'). pose proof (HrJ (S s) Hs).
          assert (q = up s' j) as Hq' by lia.
          destruct (decide (s' = K)) as [->|HsK]; [lia|].
          pose proof (HchJ s' ltac:(lia)) as Hc'. rewrite <- Hq' in Hc'.
          pose proof (par_child _ _ Hc') as E1. pose proof (par_child _ _ Hpq) as E2.
          assert (up (S s') j = up (S s) j) as E3 by congruence.
          apply (chain_inj j K) in E3; [|done|lia|lia].
          apply Hne. rewrite Hq'. f_equal. lia. }
        pose proof (Hsteps (s + m)%nat ltac:(lia)) as Hst.
        replace (S (s + m)) with (S s + m)%nat in Hst by lia.
        rewrite !up_add in Hst. fold j in Hst.
        apply (step_best _ _ _ _ Hso Hst q x y); try done.
  - (* a cell off the path *)
    assert (Hxp : data h !! Z.to_nat p = Some x).
    { rewrite <- Hother; [done|]. intros s Hs Heq.
      pose proof (HrJ s Hs). apply (Hoff s Hs). lia. }
    assert (Hyq : data h !! Z.to_nat q = Some y).
    { rewrite <- Hother; [done|]. intros s Hs Heq.
      pose proof (HrJ s Hs). assert (q = up s j) as Hq' by lia.
      destruct (decide (s = K)) as [->|HsK]; [lia|].
      pose proof (HchJ s ltac:(lia)) as Hc'. rewrite <- Hq' in Hc'.
      pose proof (par_child _ _ Hc') as E1. pose proof (par_child _ _ Hpq) as E2.
      apply (Hoff (S s)); [lia | congruence]. }
    assert (p <> pos) by (intros ->; apply (Hoff K); [lia | done]).
    apply (Hheap p q x y); try done; lia.
Qed.

End HeapifyOrder.

(** ** The sift-up loop of [__min_heap_push] *)

Section SiftUp.
Context {T : Type} (func : min_heap_callbacks T).
Implicit Types (d : list T) (g : log) (h : min_heap T).

Lemma heap_except_root d n : heap_except func d n 0 -> heap_from func d n 0.
Proof.
  intros [H1 _] p c x y Hp Hc Hcn Hx Hy.
  apply (H1 p c x y); try done. destruct Hc; lia.
Qed.

Lemma sift_up_spec n :
  swp_exchanges func -> n <= INT_MAX ->
  forall fuel pos d g,
    0 <= pos < n -> n <= Z.of_nat (length d) -> pos < Z.of_nat fuel ->
    exists d' g',
      sift_up fuel func d pos g = Some (d', g') /\ warned g' = warned g /\
      same_live n d d' /\
      (strict_weak_order func -> heap_except func d n pos -> heap_from func d' n 0).
Proof.
  intros Hswp Hmax. induction fuel as [|fuel IH]; intros pos d g Hpos Hlen Hfuel; [lia|].
  cbn [sift_up]. destruct (Z.gtb_spec pos 0) as [Hgt | Hle].
  - rewrite parent_of_eq by lia.
    pose proof (par_lt pos ltac:(lia)) as Hpar.
    pose proof (child_of_par pos ltac:(lia)) as Hchild.
    set (p := (pos - 1) / 2) in *.
    destruct (cell_exists d p ltac:(lia)) as [a Ha].
    destruct (cell_exists d pos ltac:(lia)) as [b Hb].
    unfold bind. rewrite (call_less_ok func d _ _ a b) by (done || lia).
    destruct (less func a b) eqn:Hab.
    + exists d, (add_less 1 g). unfold ret.
      split_and!; [done | done | apply same_live_refl |].
      * intros Hswo [H1 _] p' c x y _ Hc Hcn Hx Hy.
        destruct (decide (c = pos)) as [->|Hne].
        -- pose proof (par_child _ _ Hc) as E. fold p in E. subst p'.
           assert (x = a) as -> by congruence. assert (y = b) as -> by congruence.
           apply less_asym; [by apply swo_strict | done].
        -- by apply (H1 p' c x y).
    + rewrite (call_swp_ok func d _ _ a b) by (done || lia).
      set (d1 := <[Z.to_nat pos:=a]> (<[Z.to_nat p:=b]> d)).
      assert (Hl1 : length d1 = length d) by (unfold d1; by rewrite !length_insert).
      assert (Hlook : forall q : Z, 0 <= q ->
                d1 !! Z.to_nat q = if decide (q = pos) then Some a
                                   else if decide (q = p) then Some b
                                   else d !! Z.to_nat q).
      { intros q Hq. unfold d1. repeat case_decide; subst.
        - rewrite list_lookup_insert_eq; [done | rewrite length_insert; lia].
        - rewrite list_lookup_insert_ne by lia.
          rewrite list_lookup_insert_eq; [done | lia].
        - rewrite !list_lookup_insert_ne by lia. done. }
      destruct (IH p d1 (add_swp 1 (add_less 1 g)) ltac:(lia) ltac:(lia) ltac:(lia))
        as (d' & g' & Hrun & Hw & Hlive & Hheap).
      exists d', g'. split_and!; [done | done | |].
      * eapply same_live_trans; [|exact Hlive]. split_and!; [done | |].
        -- apply swap_cells_take; try done; lia.
        -- apply swap_cells_drop; lia.
      * intros Hswo [H1 H2]. apply Hheap; [done|].
        destruct Hswo as [Hirr Htr Hneg].
        split.
        -- intros p' c x y Hc Hcn Hne Hx Hy.
           pose proof (par_child _ _ Hc) as Epar.
           assert (Hp0 : 0 <= p') by (destruct Hc; lia).
           assert (Hc0 : 0 <= c) by (destruct Hc; lia).
           rewrite Hlook in Hx, Hy by lia.
           destruct (decide (c = pos)) as [->|Hcpos].
           ++ fold p in Epar. subst p'.
              rewrite decide_False, decide_True in Hx by lia.
              congruence.
           ++ rewrite decide_False in Hy by done.
              destruct (decide (p' = pos)) as [->|Hppos].
              ** assert (x = a) as -> by congruence.
                 apply (H2 c a y); try done; lia.
              ** destruct (decide (p' = p)) as [->|Hpp].
                 --- assert (x = b) as -> by congruence.
                     apply (Hneg y a b); [|done].
                     by apply (H1 p c a y).
                 --- by apply (H1 p' c x y).
        -- intros c x y Hp1 Hc Hcn Hx Hy.
           pose proof (par_lt p Hp1) as Hgp.
           pose proof (child_of_par p Hp1) as Hgc.
           assert (Hc0 : 0 <= c) by (destruct Hc; lia).
           pose proof (par_child _ _ Hc) as Epar.
           rewrite Hlook in Hx, Hy by lia.
           rewrite !decide_False in Hx by lia.
           assert (Hax : less func a x = false) by (by apply (H1 ((p - 1) / 2) p x a); try lia).
           destruct (decide (c = pos)) as [->|Hcpos].
           ++ congruence.
           ++ rewrite decide_False in Hy by (destruct Hc; lia).
              apply (Hneg y a x); [|done].
              by apply (H1 p c a y).
  - exists d, g. unfold ret. split_and!; [done | done | apply same_live_refl |].
    intros _ Hex. apply heap_except_root. by replace pos with 0 in Hex by lia.
Qed.

End SiftUp.

(** ** The five operations *)

Section Operations.
Context {T : Type} (func : min_heap_callbacks T).
Implicit Types (d : list T) (g : log) (h : min_heap T).

(** With no child of [pos] among the live elements, [__min_heapify] calls
    neither callback and leaves everything as it is. *)
Lemma heapify_leaf h pos g :
  0 <= pos -> 2 * pos + 2 <= INT_MAX -> nr h <= 2 * pos + 1 ->
  __min_heapify h pos func g = Some (h, g).
Proof.
  intros H0 Hmax Hleaf.
  unfold __min_heapify, resting_index, bind. cbn [descend backtrack shift].
  rewrite right_of_eq by lia.
  rewrite Z.geb_leb. destruct (Z.leb_spec (nr h) (2 * pos + 2)); [|lia].
  unfold ret. rewrite last_leaf_eq by lia. rewrite decide_False by lia.
  rewrite Z.eqb_refl. cbv beta iota. rewrite Z.eqb_refl. by destruct h.
Qed.

Lemma heapify_ok h pos g :
  swp_exchanges func -> heap_wf h -> 0 <= pos < nr h ->
  exists h' g',
    __min_heapify h pos func g = Some (h', g') /\ warned g' = warned g /\
    heap_wf h' /\ nr h' = nr h /\ size h' = size h /\
    same_live (nr h) (data h) (data h') /\
    (strict_order func -> heap_from func (data h) (nr h) (pos + 1) ->
     heap_from func (data h') (nr h) pos).
Proof.
  intros Hswp Hwf Hpos.
  destruct (heapify_spec func h pos g Hswp Hwf Hpos) as (L0 & N0 & L & N & m & c & h' & Hrun).
  exists h', (add_swp (N - m) (add_less (c + N0) g)).
  pose proof (run_same_live _ _ _ _ _ _ _ _ _ _ _ Hrun) as Hlive.
  split_and!.
  - apply Hrun.
  - done.
  - destruct Hwf as (Hnr & Hlen & Hmax). destruct Hlive as (Hl & _).
    unfold heap_wf. rewrite (run_nr _ _ _ _ _ _ _ _ _ _ _ Hrun), (run_size _ _ _ _ _ _ _ _ _ _ _ Hrun).
    split_and!; try done; lia.
  - apply Hrun.
  - apply Hrun.
  - done.
  - intros Hso Hheap. by eapply heapify_heap_from.
Qed.

Lemma heap_from_mono d n k k' : k <= k' -> heap_from func d n k -> heap_from func d n k'.
Proof. intros Hk H p c x y Hp. apply H. lia. Qed.

Lemma heapify_down_spec fuel :
  swp_exchanges func ->
  forall i h g,
    heap_wf h -> -1 <= i < nr h \/ i = -1 -> i + 1 < Z.of_nat fuel ->
    exists h' g',
      heapify_down fuel h i func g = Some (h', g') /\ warned g' = warned g /\
      heap_wf h' /\ nr h' = nr h /\ size h' = size h /\
      same_live (nr h) (data h) (data h') /\
      (strict_order func -> heap_from func (data h) (nr h) (i + 1) ->
       heap_from func (data h') (nr h) 0).
Proof.
  intros Hswp. induction fuel as [|fuel IH]; intros i h g Hwf Hi Hfuel; [lia|].
  cbn [heapify_down]. rewrite Z.geb_leb. destruct (Z.leb_spec 0 i) as [Hge | Hlt].
  - destruct (heapify_ok h i g Hswp Hwf ltac:(lia))
      as (h1 & g1 & Hrun1 & Hw1 & Hwf1 & Hnr1 & Hsz1 & Hlive1 & Hheap1).
    unfold bind. rewrite Hrun1.
    assert (Hi1 : int_wrap (i - 1) = i - 1).
    { destruct Hwf as (? & ? & ?). apply int_wrap_small. unfold INT_MAX in *. lia. }
    rewrite Hi1.
    destruct (IH (i - 1) h1 g1 Hwf1 ltac:(lia) ltac:(lia))
      as (h2 & g2 & Hrun2 & Hw2 & Hwf2 & Hnr2 & Hsz2 & Hlive2 & Hheap2).
    exists h2, g2. rewrite Hnr1 in *. split_and!; try congruence.
    + by eapply same_live_trans.
    + intros Hso Hheap. apply Hheap2; [done|].
      replace (i - 1 + 1) with i by lia. by apply Hheap1.
  - exists h, g. unfold ret. split_and!; try done.
    intros _. apply heap_from_mono. lia.
Qed.

Lemma heapify_all_ok h g :
  swp_exchanges func -> heap_wf h ->
  exists h' g',
    __min_heapify_all h func g = Some (h', g') /\ warned g' = warned g /\
    heap_wf h' /\ nr h' = nr h /\ size h' = size h /\
    same_live (nr h) (data h) (data h') /\
    (strict_order func -> heap_property func h').
Proof.
  intros Hswp Hwf. assert (Hwf' := Hwf). destruct Hwf' as (Hnr & Hlen & Hmax).
  unfold __min_heapify_all.
  rewrite Z.quot_div_nonneg by lia.
  assert (Hhalf : 0 <= nr h / 2 <= nr h).
  { split; [apply Z.div_pos; lia | apply Z.div_le_upper_bound; lia]. }
  rewrite (int_wrap_small (nr h / 2)) by (unfold INT_MAX in *; lia).
  rewrite int_wrap_small by (unfold INT_MAX in *; lia).
  destruct (heapify_down_spec (S (length (data h))) Hswp (nr h / 2 - 1) h g Hwf)
    as (h' & g' & Hrun & Hw & Hwf1 & Hnr1 & Hsz1 & Hlive & Hheap).
  - destruct (decide (nr h = 0)) as [E|E]; [right; rewrite E; done | left; lia].
  - lia.
  - exists h', g'. split_and!; try done.
    intros Hso. unfold heap_property. rewrite Hnr1. apply Hheap; [done|].
    intros p c x y Hp [Hp0 Hc] Hcn _ _. exfalso.
    pose proof (Z.div_mod (nr h) 2 ltac:(lia)).
    pose proof (Z.mod_pos_bound (nr h) 2 ltac:(lia)). lia.
Qed.

End Operations.

Section PopPush.
Context {T : Type} (func : min_heap_callbacks T).
Implicit Types (d : list T) (g : log) (h : min_heap T).

Lemma warn_once_false msg g : WARN_ONCE false msg g = Some (false, g).
Proof. reflexivity. Qed.

(** A successful [__min_heap_pop]: the last live element is copied over the
    root, [nr] is decremented, and the root is sifted down. *)
Lemma pop_unfold h g last :
  0 < nr h -> nr h <= INT_MAX -> data h <> [] ->
  data h !! Z.to_nat (nr h - 1) = Some last ->
  __min_heap_pop h func g
  = __min_heapify {| data := <[0%nat := last]> (data h); nr := nr h - 1; size := size h |}
                  0 func g.
Proof.
  intros Hnr Hmax Hne Hlast. unfold __min_heap_pop, bind.
  destruct (Z.leb_spec (nr h) 0); [lia|]. rewrite warn_once_false.
  rewrite int_wrap_small by (unfold INT_MAX in *; lia).
  unfold memcpy_cell, bind. rewrite (load_ok _ _ last) by (done || lia).
  rewrite store_ok; [done|]. destruct (data h); [done | simpl; lia].
Qed.

Lemma heap_from_after_root d n x :
  heap_from func d n 0 -> heap_from func (<[0%nat := x]> d) n 1.
Proof.
  intros H p c a b Hp Hc Hcn Ha Hb.
  assert (Z.to_nat p <> 0%nat) by lia.
  assert (Z.to_nat c <> 0%nat) by (destruct Hc; lia).
  rewrite list_lookup_insert_ne in Ha, Hb by done.
  apply (H p c a b); try done. lia.
Qed.

Lemma heap_from_shrink d n n' k : n' <= n -> heap_from func d n k -> heap_from func d n' k.
Proof. intros Hn H p c x y Hp Hc Hcn. apply H; try done. lia. Qed.

Lemma pop_ok h g :
  swp_exchanges func -> heap_wf h -> 0 < nr h ->
  exists h' g' r,
    __min_heap_pop h func g = Some (h', g') /\ warned g' = warned g /\
    heap_wf h' /\ nr h' = nr h - 1 /\ size h' = size h /\
    data h !! 0%nat = Some r /\ live h ≡ₚ r :: live h' /\
    (strict_order func -> heap_property func h -> heap_property func h').
Proof.
  intros Hswp Hwf Hpos. assert (Hwf' := Hwf). destruct Hwf' as (Hnr & Hlen & Hmax).
  destruct (cell_exists (data h) (nr h - 1) ltac:(lia)) as [last Hlast].
  destruct (cell_exists (data h) 0 ltac:(lia)) as [r Hr]. simpl in Hr.
  assert (Hne : data h <> []) by (intros E; by rewrite E in Hr).
  rewrite (pop_unfold h g last) by (done || unfold INT_MAX in *; lia).
  set (h1 := {| data := <[0%nat := last]> (data h); nr := nr h - 1; size := size h |}).
  assert (Hwf1 : heap_wf h1).
  { unfold heap_wf, h1; simpl. rewrite length_insert. lia. }
  assert (Hlive1 : live h ≡ₚ r :: live h1).
  { unfold live, h1; simpl.
    replace (Z.to_nat (nr h)) with (S (Z.to_nat (nr h - 1))) by lia.
    rewrite (take_S_r _ _ last) by done.
    destruct (data h) as [|r' tl] eqn:Ed; [done|]. simpl in Hr. injection Hr as ->.
    destruct (Z.to_nat (nr h - 1)) as [|k] eqn:Ek.
    - simpl in *. by injection Hlast as ->.
    - simpl. apply Permutation_cons; [done|].
      symmetry. apply Permutation_cons_append. }
  assert (Hheap1 : strict_order func -> heap_property func h ->
                   heap_from func (data h1) (nr h1) 1).
  { intros _ Hh. unfold h1; simpl. apply heap_from_after_root.
    apply (heap_from_shrink _ (nr h)); [lia | done]. }
  destruct (decide (nr h = 1)) as [E1 | E1].
  - rewrite heapify_leaf by (unfold INT_MAX; simpl; lia).
    exists h1, g, r. split_and!; try done; try (simpl; lia).
    intros _ _ p c x y Hp [Hp0 Hc] Hcn. simpl in Hcn. lia.
  - destruct (heapify_ok func h1 0 g Hswp Hwf1 ltac:(simpl; lia))
      as (h' & g' & Hrun & Hw & Hwf2 & Hnr2 & Hsz2 & (Hl & Hperm & Hdrop) & Hheap).
    exists h', g', r. split_and!; try done.
    + rewrite Hlive1. apply Permutation_cons; [done|].
      unfold live. rewrite Hnr2. by symmetry.
    + intros Hso Hh. unfold heap_property. rewrite Hnr2. apply Hheap; [done|].
      by apply Hheap1.
Qed.

Lemma pop_push_ok h x g :
  swp_exchanges func -> heap_wf h -> 0 < nr h ->
  exists h' g' r,
    __min_heap_pop_push h x func g = Some (h', g') /\ warned g' = warned g /\
    heap_wf h' /\ nr h' = nr h /\ size h' = size h /\
    data h !! 0%nat = Some r /\ r :: live h' ≡ₚ x :: live h /\
    (strict_order func -> heap_property func h -> heap_property func h').
Proof.
  intros Hswp Hwf Hpos. assert (Hwf' := Hwf). destruct Hwf' as (Hnr & Hlen & Hmax).
  destruct (cell_exists (data h) 0 ltac:(lia)) as [r Hr]. simpl in Hr.
  unfold __min_heap_pop_push, bind. rewrite store_ok by lia.
  change (Z.to_nat 0) with 0%nat.
  set (h1 := {| data := <[0%nat := x]> (data h); nr := nr h; size := size h |}).
  assert (Hwf1 : heap_wf h1).
  { unfold heap_wf, h1; simpl. rewrite length_insert. lia. }
  destruct (heapify_ok func h1 0 g Hswp Hwf1 ltac:(simpl; lia))
    as (h' & g' & Hrun & Hw & Hwf2 & Hnr2 & Hsz2 & (Hl & Hperm & Hdrop) & Hheap).
  exists h', g', r. split_and!; try done.
  - unfold live. rewrite Hnr2. unfold h1 in Hperm |- *. simpl in Hperm |- *. rewrite Hperm.
    destruct (data h) as [|r' tl] eqn:Ed; [done|]. simpl in Hr. injection Hr as ->.
    destruct (Z.to_nat (nr h)) as [|k] eqn:Ek; [lia|].
    simpl. apply perm_swap.
  - intros Hso Hh. unfold heap_property. rewrite Hnr2. apply Hheap; [done|].
    unfold h1; simpl. by apply heap_from_after_root.
Qed.

Lemma push_ok h x g :
  swp_exchanges func -> heap_wf h -> nr h < size h ->
  exists h' g',
    __min_heap_push h x func g = Some (h', g') /\ warned g' = warned g /\
    heap_wf h' /\ nr h' = nr h + 1 /\ size h' = size h /\
    live h' ≡ₚ live h ++ [x] /\
    (strict_weak_order func -> heap_property func h -> heap_property func h').
Proof.
  intros Hswp Hwf Hfree. assert (Hwf' := Hwf). destruct Hwf' as (Hnr & Hlen & Hmax).
  unfold __min_heap_push, bind.
  rewrite Z.geb_leb. destruct (Z.leb_spec (size h) (nr h)); [lia|].
  rewrite warn_once_false. rewrite store_ok by lia.
  set (d1 := <[Z.to_nat (nr h) := x]> (data h)).
  assert (Hl1 : length d1 = length (data h)) by (unfold d1; by rewrite length_insert).
  destruct (sift_up_spec func (nr h + 1) Hswp ltac:(unfold INT_MAX in *; lia)
              (S (length (data h))) (nr h) d1 g ltac:(lia) ltac:(lia) ltac:(lia))
    as (d' & g' & Hrun & Hw & (Hl & Hperm & Hdrop) & Hheap).
  rewrite Hrun. rewrite int_wrap_small by (unfold INT_MAX in *; lia).
  eexists _, g'. split_and!; try done.
  - unfold heap_wf; simpl. lia.
  - unfold live; simpl. rewrite Hperm.
    replace (Z.to_nat (nr h + 1)) with (S (Z.to_nat (nr h))) by lia.
    rewrite (take_S_r _ _ x).
    + unfold d1. by rewrite take_insert_ge.
    + unfold d1. apply list_lookup_insert_eq. lia.
  - intros Hswo Hh. unfold heap_property; simpl. apply Hheap; [done|]. split.
    + intros p c a b Hc Hcn Hne Ha Hb.
      assert (0 <= p < c) by (destruct Hc; lia).
      unfold d1 in Ha, Hb. rewrite list_lookup_insert_ne in Ha, Hb by lia.
      apply (Hh p c a b); try done; lia.
    + intros c a b _ [Hp0 Hc] Hcn. lia.
Qed.

End PopPush.

(** ** Consequences of the heap property *)

Section Order.
Context {T : Type} (func : min_heap_callbacks T).
Implicit Types (d : list T) (g : log) (h : min_heap T) (l : list T).

Lemma live_length h : heap_wf h -> length (live h) = Z.to_nat (nr h).
Proof.
  intros (Hnr & Hlen & _). unfold live. rewrite length_take_le; lia.
Qed.

Lemma live_lookup h (i : nat) x :
  live h !! i = Some x <-> (Z.of_nat i < nr h /\ data h !! i = Some x).
Proof.
  unfold live. rewrite lookup_take_Some. split; intros [H1 H2]; split; try done; lia.
Qed.

(** In a heap, no live element compares less than the one at index 0. *)
Lemma root_min h r :
  strict_weak_order func -> heap_property func h -> data h !! 0%nat = Some r ->
  forall y, y ∈ live h -> less func y r = false.
Proof.
  intros [Hirr Htr Hneg] Hheap Hr y Hy.
  apply list_elem_of_lookup in Hy as [i Hi]. apply live_lookup in Hi as [Hin Hi].
  revert y Hin Hi. induction (lt_wf i) as [i _ IH]. intros y Hin Hi.
  destruct (decide (i = 0%nat)) as [->|Hne].
  - assert (y = r) as -> by congruence. apply Hirr.
  - pose proof (child_of_par (Z.of_nat i) ltac:(lia)) as Hc.
    pose proof (par_lt (Z.of_nat i) ltac:(lia)) as Hp.
    set (p := (Z.of_nat i - 1) / 2) in *.
    destruct (lookup_lt_is_Some_2 (data h) (Z.to_nat p)) as [x Hx].
    { apply lookup_lt_Some in Hi. lia. }
    apply (Hneg y x r).
    + apply (Hheap p (Z.of_nat i) x y); try done; try lia.
      by rewrite Nat2Z.id.
    + apply (IH (Z.to_nat p)); [lia | lia | done].
Qed.

Lemma non_decreasing_nil : non_decreasing func [].
Proof. intros i j x y _ Hx. by rewrite lookup_nil in Hx. Qed.

Lemma non_decreasing_cons x l :
  (forall y, y ∈ l -> less func y x = false) -> non_decreasing func l ->
  non_decreasing func (x :: l).
Proof.
  intros Hx Hl i j a b Hij Ha Hb.
  destruct j as [|j]; [lia|]. simpl in Hb.
  destruct i as [|i].
  - simpl in Ha. injection Ha as <-. apply Hx. by eapply list_elem_of_lookup_2.
  - simpl in Ha. apply (Hl i j); [lia | done | done].
Qed.

Lemma non_decreasing_inv x l :
  non_decreasing func (x :: l) ->
  (forall y, y ∈ l -> less func y x = false) /\ non_decreasing func l.
Proof.
  intros H. split.
  - intros y Hy. apply list_elem_of_lookup in Hy as [j Hj].
    apply (H 0%nat (S j)); [lia | done | done].
  - intros i j a b Hij Ha Hb. apply (H (S i) (S j)); [lia | done | done].
Qed.

(** Under a strict total order a multiset has one non-decreasing arrangement. *)
Lemma sorted_perm_unique l1 l2 :
  strict_total_order func -> non_decreasing func l1 -> non_decreasing func l2 ->
  l1 ≡ₚ l2 -> l1 = l2.
Proof.
  intros [_ Htot]. revert l2. induction l1 as [|x l1 IH]; intros l2 H1 H2 Hp.
  - by apply Permutation_nil in Hp.
  - destruct l2 as [|y l2]; [by apply Permutation_sym, Permutation_nil in Hp|].
    apply non_decreasing_inv in H1 as [Hx H1]. apply non_decreasing_inv in H2 as [Hy H2].
    assert (x = y) as ->.
    { assert (x ∈ y :: l2) as Hin1 by (rewrite <- Hp; left).
      assert (y ∈ x :: l1) as Hin2 by (rewrite Hp; left).
      apply elem_of_cons in Hin1 as [|Hin1]; [done|].
      apply elem_of_cons in Hin2 as [|Hin2]; [done|].
      apply Htot; [by apply Hy | by apply Hx]. }
    f_equal. apply IH; [done | done |]. by apply Permutation_cons_inv in Hp.
Qed.

Lemma push_all_ok l :
  swp_exchanges func ->
  forall h g, heap_wf h -> nr h + Z.of_nat (length l) <= size h ->
  exists h' g',
    push_all func l h g = Some (h', g') /\ warned g' = warned g /\
    heap_wf h' /\ nr h' = nr h + Z.of_nat (length l) /\ size h' = size h /\
    live h' ≡ₚ live h ++ l /\
    (strict_weak_order func -> heap_property func h -> heap_property func h').
Proof.
  intros Hswp. induction l as [|x l IH]; intros h g Hwf Hroom.
  - exists h, g. simpl. unfold ret. split_and!; try done; try lia.
    by rewrite app_nil_r.
  - simpl in Hroom. cbn [push_all]. unfold bind.
    destruct (push_ok func h x g Hswp Hwf ltac:(lia))
      as (h1 & g1 & Hrun1 & Hw1 & Hwf1 & Hnr1 & Hsz1 & Hlive1 & Hheap1).
    rewrite Hrun1.
    destruct (IH h1 g1 Hwf1 ltac:(lia))
      as (h2 & g2 & Hrun2 & Hw2 & Hwf2 & Hnr2 & Hsz2 & Hlive2 & Hheap2).
    exists h2, g2. split_and!; try done; try congruence.
    + simpl. lia.
    + rewrite Hlive2, Hlive1. by rewrite <- app_assoc.
    + intros Hswo Hh. by apply Hheap2, Hheap1.
Qed.

Lemma extract_ok n :
  swp_exchanges func ->
  forall h g, heap_wf h -> Z.of_nat n <= nr h ->
  exists out g' rest,
    extract func n h g = Some (out, g') /\ warned g' = warned g /\
    length out = n /\ live h ≡ₚ out ++ rest /\
    (strict_weak_order func -> heap_property func h -> non_decreasing func out).
Proof.
  intros Hswp. induction n as [|n IH]; intros h g Hwf Hn.
  - exists [], g, (live h). simpl. unfold ret.
    split_and!; [done | done | done | done |].
    intros _ _. apply non_decreasing_nil.
  - cbn [extract]. unfold bind.
    destruct (pop_ok func h g Hswp Hwf ltac:(lia))
      as (h1 & g1 & r & Hrun1 & Hw1 & Hwf1 & Hnr1 & Hsz1 & Hr & Hlive1 & Hheap1).
    rewrite (load_ok _ _ r) by (done || lia). rewrite Hrun1.
    destruct (IH h1 g1 Hwf1 ltac:(lia))
      as (out & g2 & rest & Hrun2 & Hw2 & Hlen & Hlive2 & Hsorted).
    rewrite Hrun2. exists (r :: out), g2, rest. unfold ret.
    split_and!; try done; try congruence.
    + simpl. by rewrite Hlen.
    + rewrite Hlive1, Hlive2. done.
    + intros Hswo Hh. apply non_decreasing_cons.
      * intros y Hy. apply (root_min h r); try done.
        rewrite Hlive1, Hlive2. right. apply elem_of_app. by left.
      * apply Hsorted; [done|]. apply Hheap1; [by apply swo_strict | done].
Qed.

(** Extracting all [nr] elements yields an arrangement of the live elements. *)
Lemma extract_all_perm h g out g' :
  swp_exchanges func -> heap_wf h ->
  extract func (Z.to_nat (nr h)) h g = Some (out, g') -> out ≡ₚ live h.
Proof.
  intros Hswp Hwf Hrun.
  destruct (extract_ok (Z.to_nat (nr h)) Hswp h g Hwf ltac:(destruct Hwf; lia))
    as (out' & g2 & rest & Hrun' & _ & Hlen & Hlive & _).
  rewrite Hrun in Hrun'. injection Hrun' as <- <-.
  pose proof (Permutation_length Hlive) as Hl.
  rewrite live_length, length_app, Hlen in Hl by done.
  destruct rest; [|simpl in Hl; lia]. by rewrite Hlive, app_nil_r.
Qed.

Lemma heap_propertyb_sound h : heap_propertyb func h = true -> heap_property func h.
Proof.
  unfold heap_propertyb. rewrite forallb_forall. intros Hall p c x y Hp [_ Hc] Hcn Hx Hy.
  specialize (Hall (Z.to_nat p)). rewrite in_seq in Hall.
  specialize (Hall ltac:(lia)). rewrite Z2Nat.id in Hall by lia.
  apply andb_prop in Hall as [Hl Hr].
  assert (Hok : child_ok func (data h) (nr h) p c = true) by (destruct Hc; by subst).
  unfold child_ok in Hok. destruct (Z.ltb_spec c (nr h)); [|lia].
  rewrite Hx, Hy in Hok. by apply negb_true_iff in Hok.
Qed.

End Order.

(** * The claims of the design document *)

(** ** The concrete instances satisfy the contracts *)

Lemma int_swp : swp_exchanges int_callbacks.
Proof. intros a b. reflexivity. Qed.

Lemma int_swo : strict_weak_order int_callbacks.
Proof.
  split; simpl.
  - intros a. apply Z.ltb_irrefl.
  - intros a b c. rewrite !Z.ltb_lt. lia.
  - intros a b c. rewrite !Z.ltb_ge. lia.
Qed.

Lemma int_sto : strict_total_order int_callbacks.
Proof.
  split; [apply int_swo|]. simpl. intros a b. rewrite !Z.ltb_ge. lia.
Qed.

Lemma key_swp : swp_exchanges key_callbacks.
Proof. intros a b. reflexivity. Qed.

Lemma key_swo : strict_weak_order key_callbacks.
Proof.
  split; simpl.
  - intros a. apply Z.ltb_irrefl.
  - intros a b c. rewrite !Z.ltb_lt. lia.
  - intros a b c. rewrite !Z.ltb_ge. lia.
Qed.

(** Why [strict_weak_order] has its third clause.  The data model asks for
    an order that is irreflexive, transitive and "consistent enough to
    define a valid heap shape"; irreflexivity and transitivity alone are
    not enough for that: under [tri_callbacks], pushing [Hi] on the heap
    [Other, Lo] exchanges it with [Other] and leaves it above [Lo]. *)
Lemma push_needs_weak_order :
  let h := {| data := [Other; Lo; Lo]; nr := 2; size := 3 |} in
  strict_order tri_callbacks /\ swp_exchanges tri_callbacks /\
  heap_wf h /\ heap_property tri_callbacks h /\
  exists h' g',
    __min_heap_push h Hi tri_callbacks empty_log = Some (h', g') /\
    data h' = [Hi; Lo; Other] /\ ~ heap_property tri_callbacks h'.
Proof.
  intros h. split_and!.
  - split; [by intros [] | by intros [] [] []].
  - by intros a b.
  - unfold heap_wf, INT_MAX; simpl; lia.
  - apply heap_propertyb_sound. reflexivity.
  - eexists _, _. split; [vm_compute; reflexivity|]. split; [reflexivity|].
    intros Hheap.
    specialize (Hheap 0 1 Hi Lo ltac:(lia) ltac:(split; [lia | by left])
                      ltac:(simpl; lia) eq_refl eq_refl).
    discriminate Hheap.
Qed.

(** ** Boundary no-ops and the concrete scenario *)

Section Boundary.
Context {T : Type}.
Implicit Types (d : list T) (g : log) (h : min_heap T) (func : min_heap_callbacks T).

Lemma warn_once_true msg g :
  exists g', WARN_ONCE true msg g = Some (true, g') /\ In msg (warned g') /\
             n_less g' = n_less g /\ n_swp g' = n_swp g.
Proof.
  unfold WARN_ONCE. destruct (existsb (String.eqb msg) (warned g)) eqn:E.
  - exists g. split_and!; try done.
    apply existsb_exists in E as (m & Hin & Heq). apply String.eqb_eq in Heq. by subst.
  - eexists. split_and!; try done. simpl. by left.
Qed.

Lemma pop_push_total func h x g :
  swp_exchanges func -> heap_wf h -> 0 < size h ->
  exists h' g', __min_heap_pop_push h x func g = Some (h', g') /\ warned g' = warned g.
Proof.
  intros Hswp Hwf Hsz. destruct (decide (0 < nr h)) as [Hnr | Hnr].
  - destruct (pop_push_ok func h x g Hswp Hwf Hnr) as (h' & g' & r & Hrun & Hw & _).
    by exists h', g'.
  - destruct Hwf as (Hn & Hlen & Hmax).
    unfold __min_heap_pop_push, bind. rewrite store_ok by lia.
    rewrite heapify_leaf by (unfold INT_MAX; simpl; lia). by eexists _, g.
Qed.

(** C5: popping an empty heap and pushing on a full heap leave [nr], [size]
    and every buffer cell unchanged, whatever the state, and call neither
    callback; each logs its diagnostic.  No other call reports anything: on
    a well-formed heap every operation within its precondition, and
    [heapify_at], [heapify_all] and [pop_push] in particular, returns and
    leaves the diagnostics as they were. *)
Theorem boundary_noops func h x pos g :
  (nr h = 0 ->
     exists g', __min_heap_pop h func g = Some (h, g') /\
                In "Popping an empty heap"%string (warned g') /\
                n_less g' = n_less g /\ n_swp g' = n_swp g) /\
  (nr h = size h ->
     exists g', __min_heap_push h x func g = Some (h, g') /\
                In "Pushing on a full heap"%string (warned g') /\
                n_less g' = n_less g /\ n_swp g' = n_swp g) /\
  (swp_exchanges func -> heap_wf h ->
     (0 < nr h ->
        exists h' g', __min_heap_pop h func g = Some (h', g') /\ warned g' = warned g) /\
     (nr h < size h ->
        exists h' g', __min_heap_push h x func g = Some (h', g') /\ warned g' = warned g) /\
     (0 <= pos < nr h ->
        exists h' g', __min_heapify h pos func g = Some (h', g') /\ warned g' = warned g) /\
     (exists h' g', __min_heapify_all h func g = Some (h', g') /\ warned g' = warned g) /\
     (0 < size h ->
        exists h' g', __min_heap_pop_push h x func g = Some (h', g') /\ warned g' = warned g)).
Proof.
  split_and!.
  - intros Hnr. unfold __min_heap_pop, bind. rewrite Hnr.
    change (0 <=? 0) with true.
    destruct (warn_once_true "Popping an empty heap" g) as (g' & -> & Hin & Hl & Hs).
    by exists g'.
  - intros Hnr. unfold __min_heap_push, bind. rewrite Hnr.
    rewrite Z.geb_leb, Z.leb_refl.
    destruct (warn_once_true "Pushing on a full heap" g) as (g' & -> & Hin & Hl & Hs).
    by exists g'.
  - intros Hswp Hwf. split_and!.
    + intros Hnr.
      destruct (pop_ok func h g Hswp Hwf Hnr) as (h' & g' & r & Hrun & Hw & _).
      by exists h', g'.
    + intros Hnr.
      destruct (push_ok func h x g Hswp Hwf Hnr) as (h' & g' & Hrun & Hw & _).
      by exists h', g'.
    + intros Hpos.
      destruct (heapify_ok func h pos g Hswp Hwf Hpos) as (h' & g' & Hrun & Hw & _).
      by exists h', g'.
    + destruct (heapify_all_ok func h g Hswp Hwf) as (h' & g' & Hrun & Hw & _).
      by exists h', g'.
    + by apply pop_push_total.
Qed.

End Boundary.

Lemma boundary_noops_witness :
  let h0 := {| data := [7; 7]; nr := 0; size := 0 |} in
  let h1 := {| data := [4; 9]; nr := 2; size := 2 |} in
  (nr h0 = 0 /\ nr h0 = size h0 /\ swp_exchanges int_callbacks /\ heap_wf h1 /\
   0 < nr h1 /\ 0 <= 1 < nr h1 /\ 0 < size h1) /\
  (exists g', __min_heap_pop h0 int_callbacks empty_log = Some (h0, g') /\
              In "Popping an empty heap"%string (warned g')) /\
  (exists g', __min_heap_push h0 5 int_callbacks empty_log = Some (h0, g') /\
              In "Pushing on a full heap"%string (warned g')) /\
  (exists h' g', __min_heap_pop h1 int_callbacks empty_log = Some (h', g') /\
                 warned g' = warned empty_log) /\
  (exists h' g', __min_heapify h1 1 int_callbacks empty_log = Some (h', g') /\
                 warned g' = warned empty_log) /\
  (exists h' g', __min_heap_pop_push h1 5 int_callbacks empty_log = Some (h', g') /\
                 warned g' = warned empty_log).
Proof.
  intros h0 h1.
  assert (Hwf : heap_wf h1) by (unfold heap_wf, INT_MAX; simpl; lia).
  assert (Hswp : swp_exchanges int_callbacks) by (intros a b; reflexivity).
  split; [split_and!; simpl; try lia; done|].
  destruct (boundary_noops int_callbacks h0 5 0 empty_log) as (Hpop & Hpush & _).
  destruct (boundary_noops int_callbacks h1 5 1 empty_log) as (_ & _ & Hrest).
  destruct (Hrest Hswp Hwf) as (Hpop1 & _ & Hfy & _ & Hpp).
  split_and!.
  - destruct (Hpop eq_refl) as (g' & H1 & H2 & _). by exists g'.
  - destruct (Hpush eq_refl) as (g' & H1 & H2 & _). by exists g'.
  - apply Hpop1. simpl. lia.
  - apply Hfy. simpl. lia.
  - apply Hpp. simpl. lia.
Defined.

(** C8: with capacity 6 and an empty heap, pushing 5, 3, 8, 1, 9, 2 leaves 1
    at index 0; one pop leaves [nr = 5] with 2 at index 0; [pop_push(0)] then
    leaves 0 at index 0, [nr] still 5, and the heap property over the five
    live elements.  The initial contents [d0] of the buffer do not matter. *)
Theorem scenario_six (d0 : list Z) :
  length d0 = 6%nat ->
  exists h1 g1 h2 g2 h3 g3,
    push_all int_callbacks [5; 3; 8; 1; 9; 2] {| data := d0; nr := 0; size := 6 |} empty_log
      = Some (h1, g1) /\
    nr h1 = 6 /\ data h1 !! 0%nat = Some 1 /\
    __min_heap_pop h1 int_callbacks g1 = Some (h2, g2) /\
    nr h2 = 5 /\ data h2 !! 0%nat = Some 2 /\
    __min_heap_pop_push h2 0 int_callbacks g2 = Some (h3, g3) /\
    data h3 !! 0%nat = Some 0 /\ nr h3 = 5 /\
    heap_property int_callbacks h3.
Proof.
  intros Hlen.
  destruct d0 as [|a [|b [|c [|d [|e [|f [|? ?]]]]]]]; try discriminate Hlen.
  eexists _, _, _, _, _, _.
  split; [vm_compute; reflexivity|].
  split; [reflexivity|]. split; [reflexivity|].
  split; [vm_compute; reflexivity|].
  split; [reflexivity|]. split; [reflexivity|].
  split; [vm_compute; reflexivity|].
  split; [reflexivity|]. split; [reflexivity|].
  apply heap_propertyb_sound. vm_compute. reflexivity.
Qed.

Lemma scenario_six_witness :
  length [0; 0; 0; 0; 0; 0] = 6%nat /\
  exists h1 g1 h2 g2 h3 g3,
    push_all int_callbacks [5; 3; 8; 1; 9; 2]
             {| data := [0; 0; 0; 0; 0; 0]; nr := 0; size := 6 |} empty_log
      = Some (h1, g1) /\
    nr h1 = 6 /\ data h1 !! 0%nat = Some 1 /\
    __min_heap_pop h1 int_callbacks g1 = Some (h2, g2) /\
    nr h2 = 5 /\ data h2 !! 0%nat = Some 2 /\
    __min_heap_pop_push h2 0 int_callbacks g2 = Some (h3, g3) /\
    data h3 !! 0%nat = Some 0 /\ nr h3 = 5 /\
    heap_property int_callbacks h3.
Proof.
  split; [reflexivity|]. apply (scenario_six [0; 0; 0; 0; 0; 0]). reflexivity.
Defined.

Section Frame.
Context {T : Type}.
Implicit Types (d : list T) (g : log) (h : min_heap T) (func : min_heap_callbacks T).

(** C10: [pop_push(element)] on a heap with [nr = 0] (whose buffer has a
    slot 0) overwrites slot 0 with [element] and changes nothing else: [nr]
    and [size] stay, every other slot stays, no comparison and no swap is
    made (the log is unchanged), no element is live, and the heap property
    holds vacuously. *)
Theorem pop_push_on_empty func h x g :
  nr h = 0 -> data h <> [] ->
  exists h',
    __min_heap_pop_push h x func g = Some (h', g) /\
    data h' = <[0%nat := x]> (data h) /\ data h' !! 0%nat = Some x /\
    (forall i, i <> 0%nat -> data h' !! i = data h !! i) /\
    nr h' = 0 /\ size h' = size h /\
    live h' = [] /\ heap_property func h'.
Proof.
  intros Hnr Hne.
  exists {| data := <[0%nat := x]> (data h); nr := nr h; size := size h |}.
  assert (Hlen : (0 < length (data h))%nat) by (destruct (data h); [done | simpl; lia]).
  split_and!; simpl; try done.
  - unfold __min_heap_pop_push, bind. rewrite store_ok by lia.
    apply heapify_leaf; simpl; unfold INT_MAX; lia.
  - by apply list_lookup_insert_eq.
  - intros i Hi. by apply list_lookup_insert_ne.
  - unfold live; simpl. by rewrite Hnr.
  - intros p c a b Hp [Hp0 Hc] Hcn. simpl in Hcn. lia.
Qed.

(** C9: [heapify_at(pos)] with [pos] in [[0, nr)], and [heapify_all], only
    permute the live elements: the multiset of the first [nr] elements is
    preserved, [nr] and [size] are unchanged, and every slot at an index
    [>= nr] is untouched. *)
Theorem heapify_permutes func h pos g :
  swp_exchanges func -> heap_wf h ->
  (0 <= pos < nr h ->
     exists h' g',
       __min_heapify h pos func g = Some (h', g') /\
       live h' ≡ₚ live h /\ nr h' = nr h /\ size h' = size h /\
       (forall i : nat, nr h <= Z.of_nat i -> data h' !! i = data h !! i)) /\
  (exists h' g',
     __min_heapify_all h func g = Some (h', g') /\
     live h' ≡ₚ live h /\ nr h' = nr h /\ size h' = size h /\
     (forall i : nat, nr h <= Z.of_nat i -> data h' !! i = data h !! i)).
Proof.
  intros Hswp Hwf.
  assert (Hframe : forall h', nr h' = nr h -> same_live (nr h) (data h) (data h') ->
             live h' ≡ₚ live h /\
             (forall i : nat, nr h <= Z.of_nat i -> data h' !! i = data h !! i)).
  { intros h' Hnr (Hl & Hperm & Hdrop). split.
    - unfold live. by rewrite Hnr.
    - intros i Hi. destruct Hwf as (Hn & _).
      replace i with (Z.to_nat (nr h) + (i - Z.to_nat (nr h)))%nat by lia.
      rewrite <- !lookup_drop. by rewrite Hdrop. }
  split.
  - intros Hpos.
    destruct (heapify_ok func h pos g Hswp Hwf Hpos)
      as (h' & g' & Hrun & _ & _ & Hnr & Hsz & Hlive & _).
    destruct (Hframe h' Hnr Hlive). by exists h', g'.
  - destruct (heapify_all_ok func h g Hswp Hwf)
      as (h' & g' & Hrun & _ & _ & Hnr & Hsz & Hlive & _).
    destruct (Hframe h' Hnr Hlive). by exists h', g'.
Qed.

End Frame.

Lemma pop_push_on_empty_witness :
  let h := {| data := [3; 1; 2]; nr := 0; size := 3 |} in
  (nr h = 0 /\ data h <> []) /\
  __min_heap_pop_push h 9 int_callbacks empty_log
  = Some ({| data := [9; 1; 2]; nr := 0; size := 3 |}, empty_log).
Proof.
  intros h. split; [split; [reflexivity | discriminate]|].
  destruct (pop_push_on_empty int_callbacks h 9 empty_log) as (h' & Hrun & Hd & _ & _ & Hn & Hs & _).
  - reflexivity.
  - discriminate.
  - rewrite Hrun. destruct h' as [d' n' s']. simpl in *. by subst.
Defined.

Lemma heapify_permutes_witness :
  let h := {| data := [9; 4; 7; 1; 8]; nr := 4; size := 5 |} in
  (swp_exchanges int_callbacks /\ heap_wf h /\ 0 <= 0 < nr h) /\
  (exists h' g', __min_heapify h 0 int_callbacks empty_log = Some (h', g') /\
                 live h' ≡ₚ live h /\ nr h' = nr h /\ size h' = size h /\
                 data h' !! 4%nat = Some 8) /\
  (exists h' g', __min_heapify_all h int_callbacks empty_log = Some (h', g') /\
                 live h' ≡ₚ live h /\ data h' !! 4%nat = Some 8).
Proof.
  intros h.
  assert (Hwf : heap_wf h) by (unfold heap_wf, INT_MAX; simpl; lia).
  assert (Hswp : swp_exchanges int_callbacks) by (intros a b; reflexivity).
  split; [split_and!; simpl; try lia; done|].
  destruct (heapify_permutes int_callbacks h 0 empty_log Hswp Hwf) as (Hone & Hall).
  split.
  - destruct (Hone ltac:(simpl; lia)) as (h' & g' & Hrun & Hp & Hn & Hs & Hfr).
    exists h', g'. split_and!; try done. rewrite Hfr; [reflexivity | simpl; lia].
  - destruct Hall as (h' & g' & Hrun & Hp & Hn & Hs & Hfr).
    exists h', g'. split_and!; try done. rewrite Hfr; [reflexivity | simpl; lia].
Defined.

Section CallCounts.
Context {T : Type}.
Implicit Types (d : list T) (g : log) (h : min_heap T) (func : min_heap_callbacks T).

(** C7: in a call [heapify_at(pos)] with [pos] in [[0, nr)], the descent
    loop makes exactly one [less] call per level it descends and no swap;
    the search for the resting index [j] makes no swap either; the final
    loop makes no comparison and exactly one [swp] call per level between
    [j] and [pos], that is [depth j - depth pos] of them.  Afterwards the
    element that was at [pos] is at [j], and each element on the path from
    [j] up to [pos] has moved to its parent's slot. *)
Theorem heapify_call_counts func h pos g :
  swp_exchanges func -> heap_wf h -> 0 <= pos < nr h ->
  exists (L0 : Z) g1 (j : Z) g2 h' g3 (levels : nat),
    descend (S (length (data h))) func (data h) (nr h) pos g = Some (L0, g1) /\
    Z.of_nat (n_less g1) = Z.of_nat (n_less g) + (depth L0 - depth pos) /\
    n_swp g1 = n_swp g /\
    resting_index h pos func g = Some (j, g2) /\
    n_swp g2 = n_swp g /\
    shift (S (length (data h))) func (data h) pos j j g2 = Some (data h', g3) /\
    __min_heapify h pos func g = Some (h', g3) /\
    n_less g3 = n_less g2 /\
    Z.of_nat (n_swp g3) = Z.of_nat (n_swp g) + (depth j - depth pos) /\
    Z.of_nat levels = depth j - depth pos /\ up levels j = pos /\
    data h' !! Z.to_nat j = data h !! Z.to_nat pos /\
    (forall s, (s < levels)%nat ->
       data h' !! Z.to_nat (up (S s) j) = data h !! Z.to_nat (up s j)).
Proof.
  intros Hswp Hwf Hpos.
  destruct (heapify_spec func h pos g Hswp Hwf Hpos) as (L0 & N0 & L & N & m & c & h' & Hrun).
  destruct Hrun as [Hdesc Hup0 Hch0 _ Hrest Hfy Hup Hch _ _ _ Hm _ _ _ _ Hrot _].
  set (j := up m L) in *. set (K := (N - m)%nat) in *.
  assert (HchJ : chain j K) by (by apply chain_up).
  assert (HupJ : up K j = pos).
  { unfold j, K. rewrite <- up_add. replace (N - m + m)%nat with N by lia. done. }
  pose proof (chain_depth j K HchJ) as HdJ. rewrite HupJ in HdJ.
  pose proof (chain_depth L0 N0 Hch0) as Hd0. rewrite Hup0 in Hd0.
  destruct Hrot as (_ & Hj & Hpath & _). rewrite HupJ in Hj.
  exists L0, (add_less N0 g), j, (add_less (c + N0) g), h',
         (add_swp K (add_less (c + N0) g)), K.
  split_and!; try done; try (simpl; lia).
  - unfold __min_heapify, bind in Hfy. rewrite Hrest in Hfy.
    destruct (shift _ _ _ _ _ _ _) as [[d' g']|]; [|done].
    unfold ret in Hfy. injection Hfy as <- <-. reflexivity.
  - intros s Hs. rewrite (Hpath (S s) ltac:(lia)).
    by replace (S s - 1)%nat with s by lia.
Qed.

End CallCounts.

Lemma heapify_call_counts_witness :
  let h := {| data := [9; 4; 7; 1; 8; 6; 5]; nr := 7; size := 7 |} in
  (swp_exchanges int_callbacks /\ heap_wf h /\ 0 <= 0 < nr h) /\
  exists (L0 : Z) g1 (j : Z) g2 h' g3 (levels : nat),
    descend (S (length (data h))) int_callbacks (data h) (nr h) 0 empty_log = Some (L0, g1) /\
    Z.of_nat (n_less g1) = Z.of_nat (n_less empty_log) + (depth L0 - depth 0) /\
    n_swp g1 = n_swp empty_log /\
    resting_index h 0 int_callbacks empty_log = Some (j, g2) /\
    n_swp g2 = n_swp empty_log /\
    shift (S (length (data h))) int_callbacks (data h) 0 j j g2 = Some (data h', g3) /\
    __min_heapify h 0 int_callbacks empty_log = Some (h', g3) /\
    n_less g3 = n_less g2 /\
    Z.of_nat (n_swp g3) = Z.of_nat (n_swp empty_log) + (depth j - depth 0) /\
    Z.of_nat levels = depth j - depth 0 /\ up levels j = 0 /\
    data h' !! Z.to_nat j = data h !! Z.to_nat 0 /\
    (forall s, (s < levels)%nat ->
       data h' !! Z.to_nat (up (S s) j) = data h !! Z.to_nat (up s j)).
Proof.
  intros h.
  assert (Hwf : heap_wf h) by (unfold heap_wf, INT_MAX; simpl; lia).
  assert (Hswp : swp_exchanges int_callbacks) by (intros a b; reflexivity).
  split; [split_and!; simpl; try lia; done|].
  apply (heapify_call_counts int_callbacks h 0 empty_log Hswp Hwf). simpl. lia.
Defined.

(** ** Invariant preservation *)

Section Invariant.
Context {T : Type}.
Implicit Types (d : list T) (g : log) (h : min_heap T) (func : min_heap_callbacks T).

Lemma run_op_ok func (o : op) h g :
  swp_exchanges func -> strict_weak_order func -> heap_wf h ->
  valid_op o (nr h) (size h) ->
  heap_property func h \/ o = HeapifyAll ->
  exists h' g',
    run_op func o h g = Some (h', g') /\ heap_wf h' /\
    nr h' = nr_after o (nr h) /\ size h' = size h /\ heap_property func h'.
Proof.
  intros Hswp Hswo Hwf Hvalid Hheap.
  pose proof (swo_strict func Hswo) as Hso.
  destruct o as [x | | x |]; simpl in *.
  - destruct Hheap as [Hheap | ?]; [|done].
    destruct (push_ok func h x g Hswp Hwf Hvalid) as (h' & g' & Hrun & _ & Hwf' & Hnr & Hsz & _ & Hh).
    exists h', g'. split_and!; try done. by apply Hh.
  - destruct Hheap as [Hheap | ?]; [|done].
    destruct (pop_ok func h g Hswp Hwf Hvalid) as (h' & g' & r & Hrun & _ & Hwf' & Hnr & Hsz & _ & _ & Hh).
    exists h', g'. split_and!; try done. by apply Hh.
  - destruct Hheap as [Hheap | ?]; [|done].
    destruct (pop_push_ok func h x g Hswp Hwf Hvalid) as (h' & g' & r & Hrun & _ & Hwf' & Hnr & Hsz & _ & _ & Hh).
    exists h', g'. split_and!; try done. by apply Hh.
  - destruct (heapify_all_ok func h g Hswp Hwf) as (h' & g' & Hrun & _ & Hwf' & Hnr & Hsz & _ & Hh).
    exists h', g'. split_and!; try done. by apply Hh.
Qed.

Lemma run_ops_ok func (ops : list op) :
  swp_exchanges func -> strict_weak_order func ->
  forall h g, heap_wf h -> valid_ops ops (nr h) (size h) -> heap_property func h ->
  exists hs g',
    run_ops func ops h g = Some (hs, g') /\ length hs = length ops /\
    Forall (heap_property func) hs.
Proof.
  intros Hswp Hswo. induction ops as [|o os IH]; intros h g Hwf Hvalid Hheap.
  - exists [], g. by split_and!.
  - destruct Hvalid as [Hv Hvs]. cbn [run_ops]. unfold bind.
    destruct (run_op_ok func o h g Hswp Hswo Hwf Hv ltac:(by left))
      as (h' & g' & Hrun & Hwf' & Hnr & Hsz & Hh).
    rewrite Hrun. rewrite <- Hnr, <- Hsz in Hvs.
    destruct (IH h' g' Hwf' Hvs Hh) as (hs & g'' & Hrun' & Hlen & Hall).
    rewrite Hrun'. exists (h' :: hs), g''. split_and!; [done | simpl; by rewrite Hlen |].
    by constructor.
Qed.

(** C1: along every sequence of [push], [pop], [pop_push] and
    [heapify_all] calls, each made within its precondition ([push] when
    [nr < size], [pop] and [pop_push] when [nr > 0]), every call returns and
    the heap property holds after each call.  The sequence starts from a
    state with the heap property, or from any arrangement when its first
    call is [heapify_all]. *)
Theorem invariant_preserved func (ops : list op) h g :
  swp_exchanges func -> strict_weak_order func -> heap_wf h ->
  valid_ops ops (nr h) (size h) ->
  heap_property func h \/ (exists os, ops = HeapifyAll :: os) ->
  exists hs g',
    run_ops func ops h g = Some (hs, g') /\ length hs = length ops /\
    Forall (heap_property func) hs.
Proof.
  intros Hswp Hswo Hwf Hvalid [Hheap | [os ->]].
  - by apply run_ops_ok.
  - destruct Hvalid as [Hv Hvs]. cbn [run_ops]. unfold bind.
    destruct (run_op_ok func HeapifyAll h g Hswp Hswo Hwf Hv ltac:(by right))
      as (h' & g' & Hrun & Hwf' & Hnr & Hsz & Hh).
    rewrite Hrun. rewrite <- Hnr, <- Hsz in Hvs.
    destruct (run_ops_ok func os Hswp Hswo h' g' Hwf' Hvs Hh) as (hs & g'' & Hrun' & Hlen & Hall).
    rewrite Hrun'. exists (h' :: hs), g''. split_and!; [done | simpl; by rewrite Hlen |].
    by constructor.
Qed.

End Invariant.

Lemma invariant_preserved_witness :
  let h := {| data := [8; 2; 5; 0]; nr := 3; size := 4 |} in
  let ops := [HeapifyAll; Push 1; Pop; PopPush 9; Pop] in
  (swp_exchanges int_callbacks /\ strict_weak_order int_callbacks /\ heap_wf h /\
   valid_ops ops (nr h) (size h) /\ exists os, ops = HeapifyAll :: os) /\
  exists hs g',
    run_ops int_callbacks ops h empty_log = Some (hs, g') /\ length hs = length ops /\
    Forall (heap_property int_callbacks) hs.
Proof.
  intros h ops.
  assert (Hwf : heap_wf h) by (unfold heap_wf, INT_MAX; simpl; lia).
  assert (Hswp : swp_exchanges int_callbacks) by (intros a b; reflexivity).
  assert (Hv : valid_ops ops (nr h) (size h)) by (simpl; lia).
  assert (Hfirst : exists os, ops = HeapifyAll :: os) by (eexists; reflexivity).
  split; [split_and!; try done; apply int_swo|].
  apply (invariant_preserved int_callbacks ops h empty_log Hswp int_swo Hwf Hv).
  by right.
Defined.

(** ** Extraction *)

Section Extraction.
Context {T : Type}.
Implicit Types (d : list T) (g : log) (h : min_heap T) (func : min_heap_callbacks T).

Lemma heap_property_empty func h : nr h <= 1 -> heap_property func h.
Proof. intros Hnr p c x y Hp [Hp0 Hc] Hcn. lia. Qed.

Lemma live_empty h : nr h = 0 -> live h = [].
Proof. intros Hnr. unfold live. by rewrite Hnr. Qed.

(** C3: pushing [n <= size] elements one at a time into an empty heap and
    then reading index 0 and popping [n] times yields the [n] elements in
    an order that is non-decreasing under [less]: no value read compares
    less than a value read before it. *)
Theorem sorted_extraction func (l : list T) h0 g :
  swp_exchanges func -> strict_weak_order func -> heap_wf h0 -> nr h0 = 0 ->
  Z.of_nat (length l) <= size h0 ->
  exists h g1 out g2,
    push_all func l h0 g = Some (h, g1) /\ nr h = Z.of_nat (length l) /\
    extract func (length l) h g1 = Some (out, g2) /\
    length out = length l /\ out ≡ₚ l /\ non_decreasing func out.
Proof.
  intros Hswp Hswo Hwf0 Hnr0 Hroom.
  destruct (push_all_ok func l Hswp h0 g Hwf0 ltac:(lia))
    as (h & g1 & Hrun1 & _ & Hwf & Hnr & Hsz & Hlive & Hheap).
  rewrite Hnr0, Z.add_0_l in Hnr.
  rewrite (live_empty h0 Hnr0) in Hlive. simpl in Hlive.
  destruct (extract_ok func (length l) Hswp h g1 Hwf ltac:(lia))
    as (out & g2 & rest & Hrun2 & _ & Hlen & _ & Hsorted).
  exists h, g1, out, g2. split_and!; try done.
  - rewrite <- Hlive. apply (extract_all_perm func h g1 out g2 Hswp Hwf).
    by rewrite Hnr, Nat2Z.id.
  - apply Hsorted; [done|]. apply Hheap; [done|]. apply heap_property_empty. lia.
Qed.

(** C4: in a heap with [nr > 0] the element at index 0 is a minimum: no
    live element compares less than it.  A pop copies the element at the
    last live index over index 0, decrements [nr] and repairs from position
    0; the live elements before the pop are those after it plus the old
    element at index 0. *)
Theorem pop_removes_minimum func h g :
  swp_exchanges func -> strict_weak_order func -> heap_wf h -> 0 < nr h ->
  heap_property func h ->
  exists r last h' g',
    data h !! 0%nat = Some r /\
    (forall y, y ∈ live h -> less func y r = false) /\
    data h !! Z.to_nat (nr h - 1) = Some last /\
    __min_heap_pop h func g
    = __min_heapify {| data := <[0%nat := last]> (data h); nr := nr h - 1; size := size h |}
                    0 func g /\
    __min_heap_pop h func g = Some (h', g') /\
    nr h' = nr h - 1 /\ size h' = size h /\
    live h ≡ₚ r :: live h' /\ heap_property func h'.
Proof.
  intros Hswp Hswo Hwf Hnr Hheap.
  destruct (pop_ok func h g Hswp Hwf Hnr)
    as (h' & g' & r & Hrun & _ & Hwf' & Hnr' & Hsz & Hr & Hlive & Hh).
  destruct Hwf as (Hn & Hlen & Hmax).
  destruct (cell_exists (data h) (nr h - 1) ltac:(lia)) as [last Hlast].
  exists r, last, h', g'. split_and!; try done.
  - by apply root_min.
  - apply pop_unfold; try done; [unfold INT_MAX in *; lia|].
    intros E. by rewrite E in Hr.
  - apply Hh; [by apply swo_strict | done].
Qed.

(** The two routes of bulk-build correctness both yield a non-decreasing
    arrangement of the elements. *)
Lemma heapify_all_route func (l slack : list T) g :
  swp_exchanges func -> strict_weak_order func ->
  2 * Z.of_nat (length (l ++ slack)) <= INT_MAX ->
  exists out g',
    extract_after_heapify_all func l slack g = Some (out, g') /\
    out ≡ₚ l /\ non_decreasing func out.
Proof.
  intros Hswp Hswo Hmax. unfold extract_after_heapify_all, bind.
  set (h := {| data := l ++ slack; nr := Z.of_nat (length l);
               size := Z.of_nat (length (l ++ slack)) |}).
  assert (Hwf : heap_wf h).
  { unfold heap_wf, h; simpl. rewrite length_app in *. lia. }
  destruct (heapify_all_ok func h g Hswp Hwf)
    as (h' & g1 & Hrun & _ & Hwf' & Hnr & Hsz & (_ & Hperm & _) & Hheap).
  rewrite Hrun.
  destruct (extract_ok func (length l) Hswp h' g1 Hwf' ltac:(rewrite Hnr; simpl; lia))
    as (out & g2 & rest & Hrun2 & _ & Hlen & _ & Hsorted).
  rewrite Hrun2. exists out, g2. split_and!; try done.
  - rewrite (extract_all_perm func h' g1 out g2 Hswp Hwf').
    + unfold live. rewrite Hnr, Hperm. simpl. rewrite Nat2Z.id.
      by rewrite take_app_length.
    + rewrite Hnr. simpl. by rewrite Nat2Z.id.
  - apply Hsorted; [done|]. apply Hheap. by apply swo_strict.
Qed.

Lemma pushes_route func (l d0 : list T) g :
  swp_exchanges func -> strict_weak_order func ->
  (length l <= length d0)%nat -> 2 * Z.of_nat (length d0) <= INT_MAX ->
  exists out g',
    extract_after_pushes func l d0 g = Some (out, g') /\
    out ≡ₚ l /\ non_decreasing func out.
Proof.
  intros Hswp Hswo Hroom Hmax. unfold extract_after_pushes, bind.
  set (h0 := {| data := d0; nr := 0; size := Z.of_nat (length d0) |}).
  assert (Hwf0 : heap_wf h0) by (unfold heap_wf, h0; simpl; lia).
  destruct (push_all_ok func l Hswp h0 g Hwf0 ltac:(simpl; lia))
    as (h & g1 & Hrun1 & _ & Hwf & Hnr & Hsz & Hlive & Hheap).
  rewrite Hrun1. subst h0. simpl in Hnr, Hlive. rewrite Z.add_0_l in Hnr.
  destruct (extract_ok func (length l) Hswp h g1 Hwf ltac:(lia))
    as (out & g2 & rest & Hrun2 & _ & Hlen & _ & Hsorted).
  rewrite Hrun2. exists out, g2. split_and!; try done.
  - rewrite <- Hlive. apply (extract_all_perm func h g1 out g2 Hswp Hwf).
    by rewrite Hnr, Nat2Z.id.
  - apply Hsorted; [done|]. apply Hheap; [done|]. apply heap_property_empty. simpl. lia.
Qed.

End Extraction.

Section Equivalence.
Context {T : Type}.
Implicit Types (d : list T) (g : log) (h : min_heap T) (func : min_heap_callbacks T).

(** C6, as amended: placing [n] elements directly into the buffer, calling
    [heapify_all] and extracting all of them, and pushing the same elements
    (in any order) one at a time into an empty heap and extracting them,
    both yield an arrangement of the [n] elements that is non-decreasing
    under [less]; when [less] is a strict total order the two sequences are
    exactly the same. *)
Theorem bulk_build_agrees func (l l2 slack d0 : list T) g g0 :
  swp_exchanges func -> strict_weak_order func ->
  2 * Z.of_nat (length (l ++ slack)) <= INT_MAX ->
  l2 ≡ₚ l -> (length l2 <= length d0)%nat -> 2 * Z.of_nat (length d0) <= INT_MAX ->
  exists out1 g1 out2 g2,
    extract_after_heapify_all func l slack g = Some (out1, g1) /\
    extract_after_pushes func l2 d0 g0 = Some (out2, g2) /\
    out1 ≡ₚ l /\ non_decreasing func out1 /\
    out2 ≡ₚ l /\ non_decreasing func out2 /\
    (strict_total_order func -> out1 = out2).
Proof.
  intros Hswp Hswo Hmax Hperm Hroom Hmax0.
  destruct (heapify_all_route func l slack g Hswp Hswo Hmax) as (out1 & g1 & Hrun1 & Hp1 & Hs1).
  destruct (pushes_route func l2 d0 g0 Hswp Hswo Hroom Hmax0) as (out2 & g2 & Hrun2 & Hp2 & Hs2).
  exists out1, g1, out2, g2. split_and!; try done.
  - by rewrite Hp2.
  - intros Hsto. apply (sorted_perm_unique func); try done. by rewrite Hp1, Hp2.
Qed.

(** C2, as amended: on a heap with [nr > 0], [pop_push(element)] and a pop
    followed by [push(element)] leave the same number of live elements and
    the same multiset of live elements, and both leave a heap; the two
    buffers are permutations of one another. *)
Theorem pop_push_same_multiset func h x g :
  swp_exchanges func -> strict_weak_order func -> heap_wf h -> 0 < nr h ->
  heap_property func h ->
  exists h1 g1 h2 g2,
    __min_heap_pop_push h x func g = Some (h1, g1) /\
    pop_then_push func h x g = Some (h2, g2) /\
    nr h1 = nr h2 /\ size h1 = size h2 /\ live h1 ≡ₚ live h2 /\
    heap_property func h1 /\ heap_property func h2.
Proof.
  intros Hswp Hswo Hwf Hnr Hheap.
  pose proof (swo_strict func Hswo) as Hso.
  destruct (pop_push_ok func h x g Hswp Hwf Hnr)
    as (h1 & g1 & r & Hrun1 & _ & Hwf1 & Hnr1 & Hsz1 & Hr & Hlive1 & Hh1).
  destruct (pop_ok func h g Hswp Hwf Hnr)
    as (h' & g' & r' & Hrun' & _ & Hwf' & Hnr' & Hsz' & Hr' & Hlive' & Hh').
  assert (r' = r) as -> by congruence.
  destruct (push_ok func h' x g' Hswp Hwf' ltac:(destruct Hwf as (? & ? & ?); lia))
    as (h2 & g2 & Hrun2 & _ & Hwf2 & Hnr2 & Hsz2 & Hlive2 & Hh2).
  exists h1, g1, h2, g2. split_and!; try done.
  - unfold pop_then_push, bind. by rewrite Hrun'.
  - lia.
  - congruence.
  - apply (Permutation_cons_inv (a := r)).
    rewrite Hlive1, Hlive2, Hlive'.
    rewrite <- Permutation_cons_append. apply perm_swap.
  - by apply Hh1.
  - apply Hh2; [done|]. by apply Hh'.
Qed.

End Equivalence.

(** C6 fails as stated: with elements compared by key only, three elements
    of equal key come out of the two routes in different orders. *)
Lemma bulk_build_differs_on_ties :
  let l := [(1, 0); (1, 1); (1, 2)] in
  swp_exchanges key_callbacks /\ strict_weak_order key_callbacks /\
  exists g1 g2,
    extract_after_heapify_all key_callbacks l [] empty_log
      = Some ([(1, 2); (1, 1); (1, 0)], g1) /\
    extract_after_pushes key_callbacks l [(0, 0); (0, 0); (0, 0)] empty_log
      = Some ([(1, 2); (1, 0); (1, 1)], g2) /\
    [(1, 2); (1, 1); (1, 0)] <> [(1, 2); (1, 0); (1, 1)].
Proof.
  intros l. split; [apply key_swp|]. split; [apply key_swo|].
  eexists _, _. split; [vm_compute; reflexivity|].
  split; [vm_compute; reflexivity|]. discriminate.
Qed.

(** C2 fails as stated: on the heap 1, 2, 3 with element 4 the fused
    operation leaves 2, 4, 3 and the two separate calls leave 2, 3, 4. *)
Lemma pop_push_differs_from_pop_then_push :
  let h := {| data := [1; 2; 3]; nr := 3; size := 3 |} in
  heap_wf h /\ heap_property int_callbacks h /\
  exists h1 g1 h2 g2,
    __min_heap_pop_push h 4 int_callbacks empty_log = Some (h1, g1) /\
    pop_then_push int_callbacks h 4 empty_log = Some (h2, g2) /\
    live h1 = [2; 4; 3] /\ live h2 = [2; 3; 4] /\ live h1 <> live h2.
Proof.
  intros h. split; [unfold heap_wf, INT_MAX; simpl; lia|].
  split; [apply heap_propertyb_sound; reflexivity|].
  eexists _, _, _, _. split; [vm_compute; reflexivity|].
  split; [vm_compute; reflexivity|].
  split; [reflexivity|]. split; [reflexivity|]. discriminate.
Qed.

Lemma sorted_extraction_witness :
  let h0 := {| data := [0; 0; 0; 0]; nr := 0; size := 4 |} in
  let l := [7; 2; 9; 2] in
  (swp_exchanges int_callbacks /\ strict_weak_order int_callbacks /\ heap_wf h0 /\
   nr h0 = 0 /\ Z.of_nat (length l) <= size h0) /\
  exists h g1 out g2,
    push_all int_callbacks l h0 empty_log = Some (h, g1) /\ nr h = Z.of_nat (length l) /\
    extract int_callbacks (length l) h g1 = Some (out, g2) /\
    length out = length l /\ out ≡ₚ l /\ non_decreasing int_callbacks out.
Proof.
  intros h0 l.
  assert (Hwf : heap_wf h0) by (unfold heap_wf, INT_MAX; simpl; lia).
  assert (Hswp : swp_exchanges int_callbacks) by (intros a b; reflexivity).
  split; [split_and!; first [done | apply int_swo | simpl; lia]|].
  apply (sorted_extraction int_callbacks l h0 empty_log Hswp int_swo Hwf eq_refl).
  simpl. lia.
Defined.

Lemma pop_removes_minimum_witness :
  let h := {| data := [1; 3; 2; 5; 9; 8]; nr := 6; size := 6 |} in
  (swp_exchanges int_callbacks /\ strict_weak_order int_callbacks /\ heap_wf h /\
   0 < nr h /\ heap_property int_callbacks h) /\
  exists r last h' g',
    data h !! 0%nat = Some r /\
    (forall y, y ∈ live h -> less int_callbacks y r = false) /\
    data h !! Z.to_nat (nr h - 1) = Some last /\
    __min_heap_pop h int_callbacks empty_log
    = __min_heapify {| data := <[0%nat := last]> (data h); nr := nr h - 1; size := size h |}
                    0 int_callbacks empty_log /\
    __min_heap_pop h int_callbacks empty_log = Some (h', g') /\
    nr h' = nr h - 1 /\ size h' = size h /\
    live h ≡ₚ r :: live h' /\ heap_property int_callbacks h'.
Proof.
  intros h.
  assert (Hwf : heap_wf h) by (unfold heap_wf, INT_MAX; simpl; lia).
  assert (Hswp : swp_exchanges int_callbacks) by (intros a b; reflexivity).
  assert (Hheap : heap_property int_callbacks h) by (apply heap_propertyb_sound; reflexivity).
  split; [split_and!; try done; apply int_swo|].
  apply (pop_removes_minimum int_callbacks h empty_log Hswp int_swo Hwf); [simpl; lia | done].
Defined.

Lemma bulk_build_agrees_witness :
  let l := [7; 2; 9; 2] in
  let l2 := [2; 7; 9; 2] in
  let d0 := [0; 0; 0; 0; 0] in
  (swp_exchanges int_callbacks /\ strict_weak_order int_callbacks /\
   2 * Z.of_nat (length (l ++ [0])) <= INT_MAX /\ l2 ≡ₚ l /\
   (length l2 <= length d0)%nat /\ 2 * Z.of_nat (length d0) <= INT_MAX /\
   strict_total_order int_callbacks) /\
  exists out g1 g2,
    extract_after_heapify_all int_callbacks l [0] empty_log = Some (out, g1) /\
    extract_after_pushes int_callbacks l2 d0 empty_log = Some (out, g2) /\
    out ≡ₚ l /\ non_decreasing int_callbacks out.
Proof.
  intros l l2 d0.
  assert (Hswp : swp_exchanges int_callbacks) by (intros a b; reflexivity).
  assert (Hperm : l2 ≡ₚ l) by (unfold l, l2; apply perm_swap).
  assert (H1 : 2 * Z.of_nat (length (l ++ [0])) <= INT_MAX) by (unfold INT_MAX; simpl; lia).
  assert (H2 : 2 * Z.of_nat (length d0) <= INT_MAX) by (unfold INT_MAX; simpl; lia).
  assert (H3 : (length l2 <= length d0)%nat) by (simpl; lia).
  split; [split_and!; first [done | apply int_swo | apply int_sto]|].
  destruct (bulk_build_agrees int_callbacks l l2 [0] d0 empty_log empty_log
              Hswp int_swo H1 Hperm H3 H2)
    as (out1 & g1 & out2 & g2 & Hr1 & Hr2 & Hp1 & Hs1 & _ & _ & Heq).
  specialize (Heq int_sto). subst out2. exists out1, g1, g2. by split_and!.
Defined.

Lemma pop_push_same_multiset_witness :
  let h := {| data := [1; 2; 3]; nr := 3; size := 3 |} in
  (swp_exchanges int_callbacks /\ strict_weak_order int_callbacks /\ heap_wf h /\
   0 < nr h /\ heap_property int_callbacks h) /\
  exists h1 g1 h2 g2,
    __min_heap_pop_push h 4 int_callbacks empty_log = Some (h1, g1) /\
    pop_then_push int_callbacks h 4 empty_log = Some (h2, g2) /\
    nr h1 = nr h2 /\ size h1 = size h2 /\ live h1 ≡ₚ live h2 /\
    heap_property int_callbacks h1 /\ heap_property int_callbacks h2.
Proof.
  intros h.
  assert (Hwf : heap_wf h) by (unfold heap_wf, INT_MAX; simpl; lia).
  assert (Hswp : swp_exchanges int_callbacks) by (intros a b; reflexivity).
  assert (Hheap : heap_property int_callbacks h) by (apply heap_propertyb_sound; reflexivity).
  split; [split_and!; try done; apply int_swo|].
  apply (pop_push_same_multiset int_callbacks h 4 empty_log Hswp int_swo Hwf); [simpl; lia | done].
Defined.

(** * Further properties of the operations *)

(** ** What each operation does to the buffer *)

Section Frames.
Context {T : Type}.
Implicit Types (d : list T) (g : log) (h : min_heap T) (func : min_heap_callbacks T).

Lemma same_drop_lookup d d' (n : nat) :
  drop n d' = drop n d -> forall i : nat, (n <= i)%nat -> d' !! i = d !! i.
Proof.
  intros Hdrop i Hi. replace i with (n + (i - n))%nat by lia.
  rewrite <- !lookup_drop. by rewrite Hdrop.
Qed.

(** A push within capacity stores the element among the live ones and
    touches nothing behind them: [nr] grows by one, [size] and the length of
    the buffer stay, the live elements are the old ones and [x], and every
    cell behind the new live prefix is as before. *)
Theorem push_inserts func h x g :
  swp_exchanges func -> heap_wf h -> nr h < size h ->
  exists h' g',
    __min_heap_push h x func g = Some (h', g') /\
    nr h' = nr h + 1 /\ size h' = size h /\ length (data h') = length (data h) /\
    live h' ≡ₚ live h ++ [x] /\
    (forall i : nat, nr h < Z.of_nat i -> data h' !! i = data h !! i).
Proof.
  intros Hswp Hwf Hfree. assert (Hwf' := Hwf). destruct Hwf' as (Hnr & Hlen & Hmax).
  unfold __min_heap_push, bind.
  rewrite Z.geb_leb. destruct (Z.leb_spec (size h) (nr h)); [lia|].
  rewrite warn_once_false. rewrite store_ok by lia.
  set (d1 := <[Z.to_nat (nr h) := x]> (data h)).
  assert (Hl1 : length d1 = length (data h)) by (unfold d1; by rewrite length_insert).
  destruct (sift_up_spec func (nr h + 1) Hswp ltac:(unfold INT_MAX in *; lia)
              (S (length (data h))) (nr h) d1 g ltac:(lia) ltac:(lia) ltac:(lia))
    as (d' & g' & Hrun & _ & (Hl & Hperm & Hdrop) & _).
  rewrite Hrun. rewrite int_wrap_small by (unfold INT_MAX in *; lia).
  eexists _, g'. split_and!; try done; simpl.
  - congruence.
  - unfold live; simpl. rewrite Hperm.
    replace (Z.to_nat (nr h + 1)) with (S (Z.to_nat (nr h))) by lia.
    rewrite (take_S_r _ _ x).
    + unfold d1. by rewrite take_insert_ge.
    + unfold d1. apply list_lookup_insert_eq. lia.
  - intros i Hi.
    rewrite (same_drop_lookup d1 d' (Z.to_nat (nr h + 1)) Hdrop) by lia.
    unfold d1. apply list_lookup_insert_ne. lia.
Qed.

(** A pop of a non-empty heap takes out the element at index 0 and writes
    only in front of the last live cell: the old live elements are the old
    root and the new live ones, and every cell from index [nr - 1] on --
    the vacated cell included -- keeps its contents. *)
Theorem pop_removes_root func h g :
  swp_exchanges func -> heap_wf h -> 0 < nr h ->
  exists h' g' r,
    __min_heap_pop h func g = Some (h', g') /\
    data h !! 0%nat = Some r /\
    nr h' = nr h - 1 /\ size h' = size h /\ length (data h') = length (data h) /\
    live h ≡ₚ r :: live h' /\
    (forall i : nat, nr h - 1 <= Z.of_nat i -> data h' !! i = data h !! i).
Proof.
  intros Hswp Hwf Hpos. assert (Hwf' := Hwf). destruct Hwf' as (Hnr & Hlen & Hmax).
  destruct (pop_ok func h g Hswp Hwf Hpos)
    as (h' & g' & r & Hrun & _ & _ & Hnr' & Hsz & Hr & Hlive & _).
  exists h', g', r. split_and!; try done.
  - destruct (cell_exists (data h) (nr h - 1) ltac:(lia)) as [last Hlast].
    assert (Hne : data h <> []) by (intros E; by rewrite E in Hr).
    rewrite (pop_unfold func h g last) in Hrun by (done || unfold INT_MAX in *; lia).
    destruct (decide (nr h = 1)) as [E1|E1].
    + rewrite heapify_leaf in Hrun by (unfold INT_MAX; simpl; lia).
      injection Hrun as <- <-. simpl. by rewrite length_insert.
    + set (h1 := {| data := <[0%nat := last]> (data h); nr := nr h - 1; size := size h |}) in *.
      assert (Hwf1 : heap_wf h1).
      { unfold heap_wf, h1; simpl. rewrite length_insert. lia. }
      destruct (heapify_ok func h1 0 g Hswp Hwf1 ltac:(simpl; lia))
        as (h2 & g2 & Hrun2 & _ & _ & _ & _ & (Hl & _) & _).
      rewrite Hrun2 in Hrun. injection Hrun as <- <-.
      rewrite Hl. unfold h1; simpl. by rewrite length_insert.
  - destruct (cell_exists (data h) (nr h - 1) ltac:(lia)) as [last Hlast].
    assert (Hne : data h <> []) by (intros E; by rewrite E in Hr).
    rewrite (pop_unfold func h g last) in Hrun by (done || unfold INT_MAX in *; lia).
    intros i Hi.
    destruct (decide (nr h = 1)) as [E1|E1].
    + rewrite heapify_leaf in Hrun by (unfold INT_MAX; simpl; lia).
      injection Hrun as <- <-. simpl.
      rewrite E1 in Hlast. simpl in Hlast.
      by rewrite list_insert_id.
    + set (h1 := {| data := <[0%nat := last]> (data h); nr := nr h - 1; size := size h |}) in *.
      assert (Hwf1 : heap_wf h1).
      { unfold heap_wf, h1; simpl. rewrite length_insert. lia. }
      destruct (heapify_ok func h1 0 g Hswp Hwf1 ltac:(simpl; lia))
        as (h2 & g2 & Hrun2 & _ & _ & _ & _ & (_ & _ & Hdrop) & _).
      rewrite Hrun2 in Hrun. injection Hrun as <- <-.
      rewrite (same_drop_lookup _ _ _ Hdrop) by (unfold h1; simpl; lia).
      unfold h1; simpl. apply list_lookup_insert_ne. lia.
Qed.

(** [pop_push] on a non-empty heap replaces the element at index 0 by
    [x]: [nr], [size] and the length of the buffer stay, the new live
    elements together with the old root are the old live elements together
    with [x], and no cell behind the live prefix is written. *)
Theorem pop_push_replaces_root func h x g :
  swp_exchanges func -> heap_wf h -> 0 < nr h ->
  exists h' g' r,
    __min_heap_pop_push h x func g = Some (h', g') /\
    data h !! 0%nat = Some r /\
    nr h' = nr h /\ size h' = size h /\ length (data h') = length (data h) /\
    r :: live h' ≡ₚ x :: live h /\
    (forall i : nat, nr h <= Z.of_nat i -> data h' !! i = data h !! i).
Proof.
  intros Hswp Hwf Hpos. assert (Hwf' := Hwf). destruct Hwf' as (Hnr & Hlen & Hmax).
  destruct (pop_push_ok func h x g Hswp Hwf Hpos)
    as (h' & g' & r & Hrun & _ & _ & Hnr' & Hsz & Hr & Hlive & _).
  exists h', g', r.
  unfold __min_heap_pop_push, bind in Hrun. rewrite store_ok in Hrun by lia.
  change (Z.to_nat 0) with 0%nat in Hrun.
  set (h1 := {| data := <[0%nat := x]> (data h); nr := nr h; size := size h |}) in *.
  assert (Hwf1 : heap_wf h1).
  { unfold heap_wf, h1; simpl. rewrite length_insert. lia. }
  destruct (heapify_ok func h1 0 g Hswp Hwf1 ltac:(simpl; lia))
    as (h2 & g2 & Hrun2 & _ & _ & _ & _ & (Hl & _ & Hdrop) & _).
  assert (Hsame : h2 = h') by congruence. subst h2.
  split_and!; try done.
  - unfold __min_heap_pop_push, bind. rewrite store_ok by lia. done.
  - rewrite Hl. unfold h1; simpl. by rewrite length_insert.
  - intros i Hi. rewrite (same_drop_lookup _ _ _ Hdrop) by (unfold h1; simpl; lia).
    unfold h1; simpl. apply list_lookup_insert_ne. lia.
Qed.

End Frames.

(** ** Sifting down needs less of the order than sifting up *)

Section SiftDown.
Context {T : Type}.
Implicit Types (d : list T) (g : log) (h : min_heap T) (func : min_heap_callbacks T).

(** The contract of the single-node repair: when every edge below [pos] is
    in order (the subtrees of the children of [pos] are heaps),
    [__min_heapify] at [pos] leaves every edge from [pos] down in order.
    An irreflexive and transitive [less] is enough for this. *)
Theorem heapify_repairs func h pos g :
  swp_exchanges func -> strict_order func -> heap_wf h -> 0 <= pos < nr h ->
  heap_from func (data h) (nr h) (pos + 1) ->
  exists h' g',
    __min_heapify h pos func g = Some (h', g') /\
    nr h' = nr h /\ heap_from func (data h') (nr h') pos.
Proof.
  intros Hswp Hso Hwf Hpos Hbelow.
  destruct (heapify_ok func h pos g Hswp Hwf Hpos)
    as (h' & g' & Hrun & _ & _ & Hnr & _ & _ & Hheap).
  exists h', g'. split_and!; try done. rewrite Hnr. by apply Hheap.
Qed.

(** [__min_heapify_all] turns any arrangement of the live elements into a
    heap, for every irreflexive and transitive [less]. *)
Theorem heapify_all_builds func h g :
  swp_exchanges func -> strict_order func -> heap_wf h ->
  exists h' g',
    __min_heapify_all h func g = Some (h', g') /\
    live h' ≡ₚ live h /\ heap_property func h'.
Proof.
  intros Hswp Hso Hwf.
  destruct (heapify_all_ok func h g Hswp Hwf)
    as (h' & g' & Hrun & _ & _ & Hnr & _ & (_ & Hperm & _) & Hheap).
  exists h', g'. split_and!; try done; [|by apply Hheap].
  unfold live. by rewrite Hnr.
Qed.

(** [pop] and [pop_push] keep the heap property for every irreflexive and
    transitive [less]: unlike [push], they do not need incomparability to
    be transitive. *)
Theorem sift_down_keeps_heap func h x g :
  swp_exchanges func -> strict_order func -> heap_wf h -> 0 < nr h ->
  heap_property func h ->
  (exists h' g', __min_heap_pop h func g = Some (h', g') /\ heap_property func h') /\
  (exists h' g', __min_heap_pop_push h x func g = Some (h', g') /\ heap_property func h').
Proof.
  intros Hswp Hso Hwf Hpos Hheap. split.
  - destruct (pop_ok func h g Hswp Hwf Hpos) as (h' & g' & r & Hrun & _ & _ & _ & _ & _ & _ & Hh).
    exists h', g'. split; [done | by apply Hh].
  - destruct (pop_push_ok func h x g Hswp Hwf Hpos)
      as (h' & g' & r & Hrun & _ & _ & _ & _ & _ & _ & Hh).
    exists h', g'. split; [done | by apply Hh].
Qed.

End SiftDown.

(** ** Edge cases *)

Section Edges.
Context {T : Type}.
Implicit Types (d : list T) (g : log) (h : min_heap T) (func : min_heap_callbacks T).

(** The guards of [pop] and [push] are inequalities: with a count that is
    negative, or above the capacity, the calls still return the state
    untouched and call neither callback. *)
Theorem guards_cover_bad_counts func h x g :
  (nr h <= 0 ->
     exists g', __min_heap_pop h func g = Some (h, g') /\
                n_less g' = n_less g /\ n_swp g' = n_swp g) /\
  (size h <= nr h ->
     exists g', __min_heap_push h x func g = Some (h, g') /\
                n_less g' = n_less g /\ n_swp g' = n_swp g).
Proof.
  split; intros Hbad.
  - unfold __min_heap_pop, bind.
    destruct (Z.leb_spec (nr h) 0); [|lia].
    destruct (warn_once_true "Popping an empty heap" g) as (g' & -> & _ & Hl & Hs).
    by exists g'.
  - unfold __min_heap_push, bind. rewrite Z.geb_leb.
    destruct (Z.leb_spec (size h) (nr h)); [|lia].
    destruct (warn_once_true "Pushing on a full heap" g) as (g' & -> & _ & Hl & Hs).
    by exists g'.
Qed.

(** From index [nr / 2] on no live element has a child, and
    [__min_heapify] there changes nothing and calls neither callback: the
    loop of [__min_heapify_all] starts at [nr / 2 - 1] without missing
    anything. *)
Theorem heapify_past_half func h pos g :
  heap_wf h -> nr h / 2 <= pos -> 2 * pos + 2 <= INT_MAX ->
  __min_heapify h pos func g = Some (h, g).
Proof.
  intros (Hnr & _ & _) Hhalf Hmax.
  pose proof (Z.div_mod (nr h) 2 ltac:(lia)) as Hdm.
  pose proof (Z.mod_pos_bound (nr h) 2 ltac:(lia)) as Hb.
  assert (0 <= nr h / 2) by (apply Z.div_pos; lia).
  apply heapify_leaf; lia.
Qed.

(** The first push into an empty heap stores the element at index 0 and
    calls neither callback. *)
Theorem push_first func h x g :
  nr h = 0 -> 0 < size h -> data h <> [] ->
  __min_heap_push h x func g
  = Some ({| data := <[0%nat := x]> (data h); nr := 1; size := size h |}, g).
Proof.
  intros Hnr Hsz Hne.
  assert (Hlen : (0 < length (data h))%nat) by (destruct (data h); [done | simpl; lia]).
  unfold __min_heap_push, bind. rewrite Hnr.
  rewrite Z.geb_leb. destruct (Z.leb_spec (size h) 0); [lia|].
  rewrite warn_once_false. rewrite store_ok by lia.
  reflexivity.
Qed.

(** Popping the only element leaves the buffer as it is, sets [nr] to 0 and
    calls neither callback. *)
Theorem pop_last func h g :
  nr h = 1 -> data h <> [] ->
  __min_heap_pop h func g = Some ({| data := data h; nr := 0; size := size h |}, g).
Proof.
  intros Hnr Hne.
  destruct (data h) as [|r tl] eqn:Ed; [done|].
  rewrite (pop_unfold func h g r).
  - rewrite heapify_leaf by (unfold INT_MAX; simpl; lia).
    rewrite Hnr, Ed. reflexivity.
  - lia.
  - unfold INT_MAX. lia.
  - by rewrite Ed.
  - by rewrite Hnr, Ed.
Qed.

End Edges.

(** ** The number of callback calls *)

Section Costs.
Context {T : Type}.
Implicit Types (d : list T) (g : log) (h : min_heap T) (func : min_heap_callbacks T).

Lemma depth_nonneg i : 0 <= depth i.
Proof. apply Z.log2_nonneg. Qed.

Lemma depth_mono a b : a <= b -> depth a <= depth b.
Proof. intros Hab. apply Z.log2_le_mono. lia. Qed.

Lemma depth_par i : 1 <= i -> depth ((i - 1) / 2) = depth i - 1.
Proof. intros Hi. rewrite (depth_child _ _ (child_of_par i Hi)). lia. Qed.

Lemma call_less_log func d i j g b g' :
  call_less func d i j g = Some (b, g') -> g' = add_less 1 g.
Proof.
  unfold call_less, bind, load, tick_less, ret. intros H.
  destruct (0 <=? i); [|done]. destruct (d !! Z.to_nat i); [|done].
  destruct (0 <=? j); [|done]. destruct (d !! Z.to_nat j); [|done].
  by injection H as _ <-.
Qed.

Lemma call_swp_log func d i j g d' g' :
  call_swp func d i j g = Some (d', g') -> g' = add_swp 1 g.
Proof.
  unfold call_swp, bind, load, store, tick_swp. intros H.
  destruct (0 <=? i); [|done]. destruct (d !! Z.to_nat i); [|done].
  destruct (0 <=? j); [|done]. destruct (d !! Z.to_nat j); [|done].
  destruct (_ && _); [|done]. destruct (_ && _); [|done].
  by injection H as _ <-.
Qed.

(** The sift-up loop from [pos] compares at most once per level above
    [pos], and swaps at most as often as it compares. *)
Lemma sift_up_count func fuel :
  forall pos d g d' g',
    0 <= pos <= INT_MAX ->
    sift_up fuel func d pos g = Some (d', g') ->
    (n_less g <= n_less g')%nat /\ (n_swp g <= n_swp g')%nat /\
    Z.of_nat (n_less g') <= Z.of_nat (n_less g) + depth pos /\
    (n_swp g' + n_less g <= n_less g' + n_swp g)%nat.
Proof.
  induction fuel as [|fuel IH]; intros pos d g d' g' Hpos Hrun; [done|].
  cbn [sift_up] in Hrun. destruct (Z.gtb_spec pos 0) as [Hgt|Hle].
  - rewrite parent_of_eq in Hrun by lia. unfold bind in Hrun.
    destruct (call_less func d ((pos - 1) / 2) pos g) as [[b g1]|] eqn:Hless; [|done].
    apply call_less_log in Hless. subst g1.
    pose proof (depth_par pos ltac:(lia)) as Hd.
    pose proof (depth_nonneg ((pos - 1) / 2)) as Hd0.
    destruct b.
    + injection Hrun as <- <-. simpl. lia.
    + destruct (call_swp func d ((pos - 1) / 2) pos (add_less 1 g)) as [[d1 g2]|] eqn:Hswap;
        [|done].
      apply call_swp_log in Hswap. subst g2.
      pose proof (par_lt pos ltac:(lia)) as Hpar.
      apply IH in Hrun; [|lia]. simpl in Hrun. lia.
  - injection Hrun as <- <-. pose proof (depth_nonneg pos). lia.
Qed.

(** The backtracking loop compares at most once per level of the path. *)
Lemma backtrack_count func d pos N :
  0 <= pos ->
  forall fuel L g j g',
    chain L N -> up N L = pos -> L <= INT_MAX ->
    backtrack fuel func d pos L g = Some (j, g') ->
    (n_less g' <= n_less g + N)%nat.
Proof.
  intros Hpos. induction N as [|N IH]; intros fuel L g j g' Hch Hup Hmax Hrun;
    (destruct fuel as [|fuel]; [done|]); cbn [backtrack] in Hrun.
  - simpl in Hup. subst L. rewrite Z.eqb_refl in Hrun. injection Hrun as <- <-. lia.
  - pose proof (chain_decr L (S N) Hch 0 (S N) ltac:(lia) ltac:(lia)) as Hdec.
    rewrite Hup in Hdec. simpl in Hdec.
    destruct (Z.eqb_spec L pos) as [->|Hne]; [lia|].
    unfold bind in Hrun.
    destruct (call_less func d pos L g) as [[b g1]|] eqn:Hless; [|done].
    apply call_less_log in Hless. subst g1. destruct b.
    + rewrite parent_of_eq in Hrun by lia.
      pose proof (par_lt L ltac:(lia)) as Hpar.
      apply IH in Hrun.
      * simpl in Hrun. lia.
      * apply (chain_up L (S N) 1) in Hch; [|lia].
        replace (S N - 1)%nat with N in Hch by lia. exact Hch.
      * by rewrite up_par.
      * lia.
    + injection Hrun as <- <-. simpl. lia.
Qed.

Lemma heapify_count func h pos g :
  swp_exchanges func -> heap_wf h -> 0 <= pos < nr h ->
  exists h' g',
    __min_heapify h pos func g = Some (h', g') /\
    Z.of_nat (n_less g') <= Z.of_nat (n_less g) + 2 * (depth (nr h - 1) - depth pos) /\
    Z.of_nat (n_swp g') <= Z.of_nat (n_swp g) + (depth (nr h - 1) - depth pos).
Proof.
  intros Hswp Hwf Hpos. assert (Hwf' := Hwf). destruct Hwf' as (Hnr & Hlen & Hmax).
  destruct (heapify_spec func h pos g Hswp Hwf Hpos) as (L0 & N0 & L & N & m & c & h' & Hrun).
  destruct Hrun as [Hdesc Hup0 Hch0 Hleaf Hrest Hfy Hup Hch HL _ _ Hm _ _ _ _ _ _].
  exists h', (add_swp (N - m) (add_less (c + N0) g)). split; [done|].
  pose proof (chain_depth L N Hch) as HdL. rewrite Hup in HdL.
  pose proof (chain_depth L0 N0 Hch0) as HdL0. rewrite Hup0 in HdL0.
  pose proof (depth_mono L (nr h - 1) ltac:(lia)) as HdLn.
  assert (HposL : pos <= L).
  { rewrite <- Hup. apply (chain_top_le L N 0); [done | lia]. }
  assert (HN0 : (N0 <= N)%nat).
  { unfold last_leaf in Hleaf. destruct (right_of L0 =? nr h).
    - destruct (descend_spec func (S (length (data h))) (data h) (nr h) ltac:(lia) ltac:(lia)
                  pos g Hpos ltac:(lia)) as (L0' & N0' & Hdesc' & _ & _ & HL0 & _).
      rewrite Hdesc in Hdesc'. injection Hdesc' as <- _.
      assert (HposL0 : pos <= L0).
      { rewrite <- Hup0. apply (chain_top_le L0 N0 0); [done | lia]. }
      rewrite left_of_eq in Hleaf by (unfold INT_MAX in *; lia).
      assert (Hc : is_child L0 L) by (split; [lia | left; lia]).
      pose proof (depth_child _ _ Hc). lia.
    - subst L. lia. }
  assert (Hc : (c <= N)%nat).
  { unfold resting_index, bind in Hrest. rewrite Hdesc, Hleaf in Hrest.
    apply (backtrack_count func (data h) pos N ltac:(lia)) in Hrest;
      [| done | done | unfold INT_MAX in *; lia].
    simpl in Hrest. lia. }
  simpl. lia.
Qed.

(** [__min_heapify] at [pos] makes at most two [less] calls and one [swp]
    call per level between [pos] and the deepest live element. *)
Theorem heapify_cost func h pos g :
  swp_exchanges func -> heap_wf h -> 0 <= pos < nr h ->
  exists h' g',
    __min_heapify h pos func g = Some (h', g') /\
    Z.of_nat (n_less g') <= Z.of_nat (n_less g) + 2 * (depth (nr h - 1) - depth pos) /\
    Z.of_nat (n_swp g') <= Z.of_nat (n_swp g) + (depth (nr h - 1) - depth pos).
Proof.
  intros Hswp Hwf Hpos.
  destruct (heapify_count func h pos g Hswp Hwf Hpos) as (h' & g' & Hrun & Hl & Hs).
  by exists h', g'.
Qed.

(** [__min_heap_pop] makes at most [2 * log2 (nr - 1)] comparisons and
    [log2 (nr - 1)] swaps. *)
Theorem pop_cost func h g :
  swp_exchanges func -> heap_wf h -> 0 < nr h ->
  exists h' g',
    __min_heap_pop h func g = Some (h', g') /\
    Z.of_nat (n_less g') <= Z.of_nat (n_less g) + 2 * Z.log2 (nr h - 1) /\
    Z.of_nat (n_swp g') <= Z.of_nat (n_swp g) + Z.log2 (nr h - 1).
Proof.
  intros Hswp Hwf Hpos. assert (Hwf' := Hwf). destruct Hwf' as (Hnr & Hlen & Hmax).
  destruct (cell_exists (data h) (nr h - 1) ltac:(lia)) as [last Hlast].
  assert (Hne : data h <> []).
  { intros E. rewrite E in Hlast. by rewrite lookup_nil in Hlast. }
  rewrite (pop_unfold func h g last) by (done || unfold INT_MAX in *; lia).
  destruct (decide (nr h = 1)) as [E1|E1].
  - rewrite heapify_leaf by (unfold INT_MAX; simpl; lia).
    eexists _, g. split; [done|]. rewrite E1. simpl. lia.
  - set (h1 := {| data := <[0%nat := last]> (data h); nr := nr h - 1; size := size h |}).
    assert (Hwf1 : heap_wf h1).
    { unfold heap_wf, h1; simpl. rewrite length_insert. lia. }
    destruct (heapify_count func h1 0 g Hswp Hwf1 ltac:(simpl; lia))
      as (h' & g' & Hrun & Hl & Hs).
    exists h', g'. split; [done|].
    unfold h1, depth in Hl, Hs. simpl in Hl, Hs.
    replace (nr h - 1 - 1 + 1) with (nr h - 1) in Hl, Hs by lia. lia.
Qed.

(** [__min_heap_pop_push] makes at most [2 * log2 nr] comparisons and
    [log2 nr] swaps. *)
Theorem pop_push_cost func h x g :
  swp_exchanges func -> heap_wf h -> 0 < nr h ->
  exists h' g',
    __min_heap_pop_push h x func g = Some (h', g') /\
    Z.of_nat (n_less g') <= Z.of_nat (n_less g) + 2 * Z.log2 (nr h) /\
    Z.of_nat (n_swp g') <= Z.of_nat (n_swp g) + Z.log2 (nr h).
Proof.
  intros Hswp Hwf Hpos. assert (Hwf' := Hwf). destruct Hwf' as (Hnr & Hlen & Hmax).
  unfold __min_heap_pop_push, bind. rewrite store_ok by lia.
  set (h1 := {| data := <[Z.to_nat 0 := x]> (data h); nr := nr h; size := size h |}).
  assert (Hwf1 : heap_wf h1).
  { unfold heap_wf, h1; simpl. rewrite length_insert. lia. }
  destruct (heapify_count func h1 0 g Hswp Hwf1 ltac:(simpl; lia))
    as (h' & g' & Hrun & Hl & Hs).
  exists h', g'. split; [done|].
  unfold h1, depth in Hl, Hs. simpl in Hl, Hs.
  replace (nr h - 1 + 1) with (nr h) in Hl, Hs by lia. lia.
Qed.

(** [__min_heap_push] makes at most [log2 (nr + 1)] comparisons, and never
    more swaps than comparisons. *)
Theorem push_cost func h x g :
  swp_exchanges func -> heap_wf h -> nr h < size h ->
  exists h' g',
    __min_heap_push h x func g = Some (h', g') /\
    Z.of_nat (n_less g') <= Z.of_nat (n_less g) + Z.log2 (nr h + 1) /\
    (n_swp g' + n_less g <= n_less g' + n_swp g)%nat /\
    (n_swp g <= n_swp g')%nat.
Proof.
  intros Hswp Hwf Hfree. assert (Hwf' := Hwf). destruct Hwf' as (Hnr & Hlen & Hmax).
  unfold __min_heap_push, bind.
  rewrite Z.geb_leb. destruct (Z.leb_spec (size h) (nr h)); [lia|].
  rewrite warn_once_false. rewrite store_ok by lia.
  set (d1 := <[Z.to_nat (nr h) := x]> (data h)).
  assert (Hl1 : length d1 = length (data h)) by (unfold d1; by rewrite length_insert).
  destruct (sift_up_spec func (nr h + 1) Hswp ltac:(unfold INT_MAX in *; lia)
              (S (length (data h))) (nr h) d1 g ltac:(lia) ltac:(lia) ltac:(lia))
    as (d' & g' & Hrun & _).
  rewrite Hrun. eexists _, g'. split; [done|].
  apply sift_up_count in Hrun; [|unfold INT_MAX in *; lia].
  unfold depth in Hrun. lia.
Qed.

End Costs.

(** ** Where the smallest element goes *)

Section Minimum.
Context {T : Type}.
Implicit Types (d : list T) (g : log) (h : min_heap T) (func : min_heap_callbacks T).

(** An element at [pos] that compares less than every other live element
    stays where it is: [__min_heapify] leaves the state as it was and makes
    no swap. *)
Lemma heapify_keeps_strict_min func h pos g r :
  swp_exchanges func -> heap_wf h -> 0 <= pos < nr h ->
  data h !! Z.to_nat pos = Some r ->
  (forall i y, 0 <= i < nr h -> i <> pos -> data h !! Z.to_nat i = Some y ->
               less func r y = true) ->
  exists g', __min_heapify h pos func g = Some (h, g') /\ n_swp g' = n_swp g.
Proof.
  intros Hswp Hwf Hpos Hr Hmin.
  destruct (heapify_spec func h pos g Hswp Hwf Hpos) as (L0 & N0 & L & N & m & c & h' & Hrun).
  destruct Hrun as [_ _ _ _ _ Hfy Hup Hch HL _ _ Hm _ Hstop Hnr Hsz Hrot _].
  assert (HmN : m = N).
  { destruct (decide (m = N)) as [|Hne]; [done|].
    destruct Hstop as [|(r' & y & Hr' & Hy & Hlt)]; [done|].
    assert (r' = r) as -> by congruence.
    pose proof (chain_decr L N Hch m N ltac:(lia) ltac:(lia)) as Hd. rewrite Hup in Hd.
    pose proof (chain_range L N m Hch ltac:(lia) ltac:(lia)) as Hrg.
    rewrite (Hmin (up m L) y) in Hlt; [done | lia | lia | done]. }
  subst m. replace (N - N)%nat with 0%nat in * by lia.
  destruct Hrot as (Hl & Hj & _ & Hother).
  assert (Hd : data h' = data h).
  { apply list_eq. intros q. destruct (decide (q = Z.to_nat (up N L))) as [->|Hq].
    - exact Hj.
    - apply Hother. intros s Hs. by replace s with 0%nat by lia. }
  exists (add_swp 0 (add_less (c + N0) g)). split; [|done].
  rewrite Hfy. destruct h as [dh nh sh], h' as [dh' nh' sh']. simpl in *. by subst.
Qed.

(** [pop_push] of an element that compares less than every element below
    the root leaves it at index 0, changes no other cell and makes no
    swap. *)
Theorem pop_push_new_minimum func h x g :
  swp_exchanges func -> heap_wf h -> 0 < nr h ->
  (forall i y, 1 <= i < nr h -> data h !! Z.to_nat i = Some y -> less func x y = true) ->
  exists g',
    __min_heap_pop_push h x func g
    = Some ({| data := <[0%nat := x]> (data h); nr := nr h; size := size h |}, g') /\
    n_swp g' = n_swp g.
Proof.
  intros Hswp Hwf Hpos Hmin. assert (Hwf' := Hwf). destruct Hwf' as (Hnr & Hlen & Hmax).
  unfold __min_heap_pop_push, bind. rewrite store_ok by lia.
  change (Z.to_nat 0) with 0%nat.
  set (h1 := {| data := <[0%nat := x]> (data h); nr := nr h; size := size h |}).
  assert (Hwf1 : heap_wf h1).
  { unfold heap_wf, h1; simpl. rewrite length_insert. lia. }
  apply (heapify_keeps_strict_min func h1 0 g x Hswp Hwf1); [simpl; lia | |].
  - unfold h1; simpl. apply list_lookup_insert_eq. lia.
  - unfold h1; simpl. intros i y Hi Hne Hy.
    rewrite list_lookup_insert_ne in Hy by lia. apply (Hmin i y); [lia | done].
Qed.

(** Reading index 0 and popping [n] times takes out [n] smallest elements in
    non-decreasing order: what was read and what is left make up the old
    live elements, nothing left compares less than anything read, and what
    is left is a heap. *)
Theorem pop_n_smallest func (n : nat) :
  swp_exchanges func -> strict_weak_order func ->
  forall h g, heap_wf h -> heap_property func h -> Z.of_nat n <= nr h ->
  exists out h' g',
    pop_n func n h g = Some ((out, h'), g') /\
    length out = n /\ nr h' = nr h - Z.of_nat n /\ heap_wf h' /\
    live h ≡ₚ out ++ live h' /\ non_decreasing func out /\
    (forall a b, a ∈ out -> b ∈ live h' -> less func b a = false) /\
    heap_property func h'.
Proof.
  intros Hswp Hswo. induction n as [|n IH]; intros h g Hwf Hheap Hn.
  - exists [], h, g. simpl. unfold ret.
    split_and!; [done | done | lia | done | done | apply non_decreasing_nil | | done].
    intros a b Ha. by apply elem_of_nil in Ha.
  - cbn [pop_n]. unfold bind.
    destruct (pop_ok func h g Hswp Hwf ltac:(lia))
      as (h1 & g1 & r & Hrun1 & _ & Hwf1 & Hnr1 & _ & Hr & Hlive1 & Hheap1).
    rewrite (load_ok _ _ r) by (done || lia). rewrite Hrun1.
    specialize (Hheap1 (swo_strict func Hswo) Hheap).
    destruct (IH h1 g1 Hwf1 Hheap1 ltac:(lia))
      as (out & h' & g' & Hrun2 & Hlen & Hnr' & Hwf' & Hlive2 & Hsorted & Hsplit & Hheap').
    rewrite Hrun2. exists (r :: out), h', g'. unfold ret. simpl.
    assert (Hrmin : forall y, y ∈ out ++ live h' -> less func y r = false).
    { intros y Hy. apply (root_min func h r); try done.
      rewrite Hlive1, Hlive2. by right. }
    split_and!; try done.
    + by rewrite Hlen.
    + lia.
    + by rewrite Hlive1, Hlive2.
    + apply non_decreasing_cons; [|done].
      intros y Hy. apply Hrmin. apply elem_of_app. by left.
    + intros a b Ha Hb. apply elem_of_cons in Ha as [->|Ha].
      * apply Hrmin. apply elem_of_app. by right.
      * by apply Hsplit.
Qed.

End Minimum.

(** ** Building a heap takes linearly many callback calls *)

Section Floyd.
Context {T : Type}.
Implicit Types (d : list T) (g : log) (h : min_heap T) (func : min_heap_callbacks T).

Lemma potential_step D i :
  0 <= i -> floyd_potential D i - floyd_potential D (i + 1) = D - depth i.
Proof.
  intros Hi. unfold floyd_potential, depth.
  destruct (Z.log2_succ_or (i + 1)) as [Hs | Hs];
    replace (Z.succ (i + 1)) with (i + 1 + 1) in Hs by lia; rewrite Hs.
  - assert (Hpow : exists b, Z.succ (i + 1) = 2 ^ b).
    { apply Z.log2_eq_succ_iff_pow2; [lia|].
      replace (Z.succ (i + 1)) with (i + 1 + 1) by lia. exact Hs. }
    destruct Hpow as [b Hb].
    assert (Hb0 : 0 <= b).
    { destruct (Z.le_gt_cases 0 b); [done|]. rewrite Z.pow_neg_r in Hb by lia. lia. }
    assert (Hbl : b = Z.succ (Z.log2 (i + 1))).
    { rewrite <- Hs. replace (i + 1 + 1) with (Z.succ (i + 1)) by lia.
      rewrite Hb. by rewrite Z.log2_pow2. }
    pose proof (Z.log2_nonneg (i + 1)) as Hl0.
    replace (Z.succ (Z.log2 (i + 1)) + 1) with (Z.succ (Z.log2 (i + 1) + 1)) by lia.
    rewrite Z.pow_succ_r by lia.
    replace (Z.log2 (i + 1) + 1) with b by lia.
    assert (Hi2 : i = 2 ^ b - 2) by lia.
    rewrite Hi2. replace (Z.succ (Z.log2 (i + 1))) with b by lia.
    replace (Z.log2 (i + 1)) with (b - 1) by lia.
    ring.
  - ring.
Qed.

Lemma potential_nonneg D i : 0 <= i -> depth i <= D -> 0 <= floyd_potential D i.
Proof.
  intros Hi HD. unfold floyd_potential.
  pose proof (depth_nonneg i) as Hl0.
  assert (Hspec : i + 1 < 2 ^ (depth i + 1)).
  { unfold depth. replace (Z.log2 (i + 1) + 1) with (Z.succ (Z.log2 (i + 1))) by lia.
    apply Z.log2_spec. lia. }
  set (l := depth i) in *. set (k := D - l).
  assert (Hk : k + 1 <= 2 ^ k).
  { pose proof (Z.pow_gt_lin_r 2 k ltac:(lia) ltac:(lia)). lia. }
  replace (D + 1) with (l + 1 + k) by lia.
  rewrite Z.pow_add_r by lia.
  assert (0 < 2 ^ (l + 1)) by (apply Z.pow_pos_nonneg; lia).
  nia.
Qed.

Lemma potential_root D : 0 <= D -> floyd_potential D 0 = 2 ^ (D + 1) - D - 2.
Proof. intros HD. unfold floyd_potential, depth. simpl. lia. Qed.

Lemma heapify_down_count func fuel :
  swp_exchanges func ->
  forall i h g,
    heap_wf h -> -1 <= i < nr h \/ i = -1 -> i + 1 < Z.of_nat fuel ->
    exists h' g',
      heapify_down fuel h i func g = Some (h', g') /\
      Z.of_nat (n_less g') <= Z.of_nat (n_less g) +
        2 * (floyd_potential (depth (nr h - 1)) 0 - floyd_potential (depth (nr h - 1)) (i + 1)) /\
      Z.of_nat (n_swp g') <= Z.of_nat (n_swp g) +
        (floyd_potential (depth (nr h - 1)) 0 - floyd_potential (depth (nr h - 1)) (i + 1)).
Proof.
  intros Hswp. induction fuel as [|fuel IH]; intros i h g Hwf Hi Hfuel; [lia|].
  cbn [heapify_down]. rewrite Z.geb_leb. destruct (Z.leb_spec 0 i) as [Hge | Hlt].
  - destruct (heapify_count func h i g Hswp Hwf ltac:(lia)) as (h1 & g1 & Hrun1 & Hl1 & Hs1).
    destruct (heapify_ok func h i g Hswp Hwf ltac:(lia))
      as (h1' & g1' & Hrun1' & _ & Hwf1 & Hnr1 & _).
    rewrite Hrun1 in Hrun1'. injection Hrun1' as <- <-.
    unfold bind. rewrite Hrun1.
    assert (Hi1 : int_wrap (i - 1) = i - 1).
    { destruct Hwf as (? & ? & ?). apply int_wrap_small. unfold INT_MAX in *. lia. }
    rewrite Hi1.
    destruct (IH (i - 1) h1 g1 Hwf1 ltac:(lia) ltac:(lia)) as (h2 & g2 & Hrun2 & Hl2 & Hs2).
    exists h2, g2. split; [done|].
    rewrite Hnr1 in Hl2, Hs2. replace (i - 1 + 1) with i in Hl2, Hs2 by lia.
    pose proof (potential_step (depth (nr h - 1)) i Hge). lia.
  - exists h, g. unfold ret. split; [done|].
    replace (i + 1) with 0 by lia. lia.
Qed.

(** Floyd's construction is linear: [__min_heapify_all] makes at most
    [4 * nr] comparisons and [2 * nr] swaps. *)
Theorem heapify_all_cost func h g :
  swp_exchanges func -> heap_wf h ->
  exists h' g',
    __min_heapify_all h func g = Some (h', g') /\
    Z.of_nat (n_less g') <= Z.of_nat (n_less g) + 4 * nr h /\
    Z.of_nat (n_swp g') <= Z.of_nat (n_swp g) + 2 * nr h.
Proof.
  intros Hswp Hwf. assert (Hwf' := Hwf). destruct Hwf' as (Hnr & Hlen & Hmax).
  unfold __min_heapify_all.
  rewrite Z.quot_div_nonneg by lia.
  assert (Hhalf : 0 <= nr h / 2 <= nr h).
  { split; [apply Z.div_pos; lia | apply Z.div_le_upper_bound; lia]. }
  rewrite (int_wrap_small (nr h / 2)) by (unfold INT_MAX in *; lia).
  rewrite int_wrap_small by (unfold INT_MAX in *; lia).
  destruct (heapify_down_count func (S (length (data h))) Hswp (nr h / 2 - 1) h g Hwf)
    as (h' & g' & Hrun & Hl & Hs).
  - destruct (decide (nr h = 0)) as [E|E]; [right; rewrite E; done | left; lia].
  - lia.
  - exists h', g'. split; [done|].
    replace (nr h / 2 - 1 + 1) with (nr h / 2) in Hl, Hs by lia.
    destruct (decide (nr h = 0)) as [E|E].
    + replace (nr h / 2) with 0 in Hl, Hs by (rewrite E; reflexivity). lia.
    + set (D := depth (nr h - 1)) in *.
      assert (HD0 : 0 <= D) by apply depth_nonneg.
      assert (Hhalf' : nr h / 2 <= nr h - 1).
      { pose proof (Z.div_mod (nr h) 2 ltac:(lia)).
        pose proof (Z.mod_pos_bound (nr h) 2 ltac:(lia)). lia. }
      pose proof (potential_nonneg D (nr h / 2) ltac:(lia)
                    ltac:(by apply depth_mono)) as Hnn.
      rewrite potential_root in Hl, Hs by done.
      assert (Hpow : 2 ^ D <= nr h).
      { unfold D, depth. replace (nr h - 1 + 1) with (nr h) by lia.
        apply Z.log2_spec. lia. }
      replace (D + 1) with (Z.succ D) in Hl, Hs by lia.
      rewrite Z.pow_succ_r in Hl, Hs by done. lia.
Qed.

End Floyd.

(** ** The further properties on concrete heaps *)

Lemma tri_strict_order : strict_order tri_callbacks.
Proof. split; [by intros [] | by intros [] [] []]. Qed.

Lemma tri_swp : swp_exchanges tri_callbacks.
Proof. by intros a b. Qed.

Lemma heapify_repairs_witness :
  let h := {| data := [Hi; Other; Lo]; nr := 3; size := 3 |} in
  (swp_exchanges tri_callbacks /\ strict_order tri_callbacks /\ heap_wf h /\
   0 <= 0 < nr h /\ heap_from tri_callbacks (data h) (nr h) (0 + 1)) /\
  exists h' g',
    __min_heapify h 0 tri_callbacks empty_log = Some (h', g') /\
    nr h' = nr h /\ heap_from tri_callbacks (data h') (nr h') 0.
Proof.
  intros h.
  assert (Hwf : heap_wf h) by (unfold heap_wf, INT_MAX; simpl; lia).
  assert (Hpos : 0 <= 0 < nr h) by (simpl; lia).
  assert (Hbelow : heap_from tri_callbacks (data h) (nr h) (0 + 1)).
  { intros p c x y Hp [_ Hc] Hcn. simpl in Hcn. lia. }
  split; [split_and!; first [done | apply tri_swp | apply tri_strict_order]|].
  apply (heapify_repairs tri_callbacks h 0 empty_log tri_swp tri_strict_order Hwf Hpos Hbelow).
Defined.

Lemma heapify_all_builds_witness :
  let h := {| data := [Hi; Other; Lo; Hi; Lo]; nr := 5; size := 5 |} in
  (swp_exchanges tri_callbacks /\ strict_order tri_callbacks /\ heap_wf h) /\
  exists h' g',
    __min_heapify_all h tri_callbacks empty_log = Some (h', g') /\
    live h' ≡ₚ live h /\ heap_property tri_callbacks h'.
Proof.
  intros h.
  assert (Hwf : heap_wf h) by (unfold heap_wf, INT_MAX; simpl; lia).
  split; [split_and!; first [done | apply tri_swp | apply tri_strict_order]|].
  apply (heapify_all_builds tri_callbacks h empty_log tri_swp tri_strict_order Hwf).
Defined.

Lemma sift_down_keeps_heap_witness :
  let h := {| data := [Lo; Other; Hi]; nr := 3; size := 3 |} in
  (swp_exchanges tri_callbacks /\ strict_order tri_callbacks /\ heap_wf h /\
   0 < nr h /\ heap_property tri_callbacks h) /\
  (exists h' g', __min_heap_pop h tri_callbacks empty_log = Some (h', g') /\
                 heap_property tri_callbacks h') /\
  (exists h' g', __min_heap_pop_push h Hi tri_callbacks empty_log = Some (h', g') /\
                 heap_property tri_callbacks h').
Proof.
  intros h.
  assert (Hwf : heap_wf h) by (unfold heap_wf, INT_MAX; simpl; lia).
  assert (Hpos : 0 < nr h) by (simpl; lia).
  assert (Hheap : heap_property tri_callbacks h) by (apply heap_propertyb_sound; reflexivity).
  split; [split_and!; first [done | apply tri_swp | apply tri_strict_order]|].
  apply (sift_down_keeps_heap tri_callbacks h Hi empty_log tri_swp tri_strict_order
           Hwf Hpos Hheap).
Defined.

Lemma push_inserts_witness :
  let h := {| data := [2; 5; 0; 8]; nr := 2; size := 3 |} in
  (swp_exchanges int_callbacks /\ heap_wf h /\ nr h < size h) /\
  exists h' g',
    __min_heap_push h 1 int_callbacks empty_log = Some (h', g') /\
    nr h' = nr h + 1 /\ size h' = size h /\ length (data h') = length (data h) /\
    live h' ≡ₚ live h ++ [1] /\
    (forall i : nat, nr h < Z.of_nat i -> data h' !! i = data h !! i).
Proof.
  intros h.
  assert (Hwf : heap_wf h) by (unfold heap_wf, INT_MAX; simpl; lia).
  assert (Hfree : nr h < size h) by (simpl; lia).
  split; [split_and!; first [done | apply int_swp]|].
  apply (push_inserts int_callbacks h 1 empty_log int_swp Hwf Hfree).
Defined.

Lemma pop_removes_root_witness :
  let h := {| data := [2; 5; 3; 8]; nr := 3; size := 4 |} in
  (swp_exchanges int_callbacks /\ heap_wf h /\ 0 < nr h) /\
  exists h' g' r,
    __min_heap_pop h int_callbacks empty_log = Some (h', g') /\
    data h !! 0%nat = Some r /\
    nr h' = nr h - 1 /\ size h' = size h /\ length (data h') = length (data h) /\
    live h ≡ₚ r :: live h' /\
    (forall i : nat, nr h - 1 <= Z.of_nat i -> data h' !! i = data h !! i).
Proof.
  intros h.
  assert (Hwf : heap_wf h) by (unfold heap_wf, INT_MAX; simpl; lia).
  assert (Hpos : 0 < nr h) by (simpl; lia).
  split; [split_and!; first [done | apply int_swp]|].
  apply (pop_removes_root int_callbacks h empty_log int_swp Hwf Hpos).
Defined.

Lemma pop_push_replaces_root_witness :
  let h := {| data := [2; 5; 3; 8]; nr := 3; size := 4 |} in
  (swp_exchanges int_callbacks /\ heap_wf h /\ 0 < nr h) /\
  exists h' g' r,
    __min_heap_pop_push h 4 int_callbacks empty_log = Some (h', g') /\
    data h !! 0%nat = Some r /\
    nr h' = nr h /\ size h' = size h /\ length (data h') = length (data h) /\
    r :: live h' ≡ₚ 4 :: live h /\
    (forall i : nat, nr h <= Z.of_nat i -> data h' !! i = data h !! i).
Proof.
  intros h.
  assert (Hwf : heap_wf h) by (unfold heap_wf, INT_MAX; simpl; lia).
  assert (Hpos : 0 < nr h) by (simpl; lia).
  split; [split_and!; first [done | apply int_swp]|].
  apply (pop_push_replaces_root int_callbacks h 4 empty_log int_swp Hwf Hpos).
Defined.

Lemma guards_cover_bad_counts_witness :
  let h := {| data := [2; 5]; nr := -3; size := 2 |} in
  let h2 := {| data := [2; 5]; nr := 7; size := 2 |} in
  (nr h <= 0 /\ size h2 <= nr h2) /\
  (exists g', __min_heap_pop h int_callbacks empty_log = Some (h, g')) /\
  (exists g', __min_heap_push h2 1 int_callbacks empty_log = Some (h2, g')).
Proof.
  intros h h2. split; [simpl; lia|].
  destruct (guards_cover_bad_counts int_callbacks h 1 empty_log) as (Hpop & _).
  destruct (guards_cover_bad_counts int_callbacks h2 1 empty_log) as (_ & Hpush).
  split.
  - destruct (Hpop ltac:(simpl; lia)) as (g' & Hrun & _). by exists g'.
  - destruct (Hpush ltac:(simpl; lia)) as (g' & Hrun & _). by exists g'.
Defined.

Lemma heapify_past_half_witness :
  let h := {| data := [9; 4; 7; 1; 8]; nr := 5; size := 5 |} in
  (heap_wf h /\ nr h / 2 <= 2 /\ 2 * 2 + 2 <= INT_MAX) /\
  __min_heapify h 2 int_callbacks empty_log = Some (h, empty_log).
Proof.
  intros h.
  assert (Hwf : heap_wf h) by (unfold heap_wf, INT_MAX; simpl; lia).
  assert (Hhalf : nr h / 2 <= 2) by (vm_compute; discriminate).
  assert (Hmax : 2 * 2 + 2 <= INT_MAX) by (unfold INT_MAX; lia).
  split; [done|].
  apply (heapify_past_half int_callbacks h 2 empty_log Hwf Hhalf Hmax).
Defined.

Lemma push_first_witness :
  let h := {| data := [0; 0]; nr := 0; size := 2 |} in
  (nr h = 0 /\ 0 < size h /\ data h <> []) /\
  __min_heap_push h 6 int_callbacks empty_log
  = Some ({| data := [6; 0]; nr := 1; size := 2 |}, empty_log).
Proof.
  intros h. split; [split_and!; [reflexivity | simpl; lia | discriminate]|].
  apply (push_first int_callbacks h 6 empty_log); [reflexivity | simpl; lia | discriminate].
Defined.

Lemma pop_last_witness :
  let h := {| data := [6; 0]; nr := 1; size := 2 |} in
  (nr h = 1 /\ data h <> []) /\
  __min_heap_pop h int_callbacks empty_log
  = Some ({| data := [6; 0]; nr := 0; size := 2 |}, empty_log).
Proof.
  intros h. split; [split; [reflexivity | discriminate]|].
  apply (pop_last int_callbacks h empty_log); [reflexivity | discriminate].
Defined.

Lemma heapify_cost_witness :
  let h := {| data := [9; 4; 7; 1; 8; 6; 5]; nr := 7; size := 7 |} in
  (swp_exchanges int_callbacks /\ heap_wf h /\ 0 <= 0 < nr h) /\
  exists h' g',
    __min_heapify h 0 int_callbacks empty_log = Some (h', g') /\
    Z.of_nat (n_less g') <= 4 /\ Z.of_nat (n_swp g') <= 2.
Proof.
  intros h.
  assert (Hwf : heap_wf h) by (unfold heap_wf, INT_MAX; simpl; lia).
  assert (Hpos : 0 <= 0 < nr h) by (simpl; lia).
  split; [split_and!; first [done | apply int_swp]|].
  destruct (heapify_cost int_callbacks h 0 empty_log int_swp Hwf Hpos)
    as (h' & g' & Hrun & Hl & Hs).
  exists h', g'. split; [done|]. exact (conj Hl Hs).
Defined.

Lemma pop_cost_witness :
  let h := {| data := [1; 3; 2; 5; 9; 8]; nr := 6; size := 6 |} in
  (swp_exchanges int_callbacks /\ heap_wf h /\ 0 < nr h) /\
  exists h' g',
    __min_heap_pop h int_callbacks empty_log = Some (h', g') /\
    Z.of_nat (n_less g') <= 4 /\ Z.of_nat (n_swp g') <= 2.
Proof.
  intros h.
  assert (Hwf : heap_wf h) by (unfold heap_wf, INT_MAX; simpl; lia).
  assert (Hpos : 0 < nr h) by (simpl; lia).
  split; [split_and!; first [done | apply int_swp]|].
  destruct (pop_cost int_callbacks h empty_log int_swp Hwf Hpos)
    as (h' & g' & Hrun & Hl & Hs).
  exists h', g'. split; [done|]. exact (conj Hl Hs).
Defined.

Lemma pop_push_cost_witness :
  let h := {| data := [1; 3; 2; 5; 9; 8]; nr := 6; size := 6 |} in
  (swp_exchanges int_callbacks /\ heap_wf h /\ 0 < nr h) /\
  exists h' g',
    __min_heap_pop_push h 7 int_callbacks empty_log = Some (h', g') /\
    Z.of_nat (n_less g') <= 4 /\ Z.of_nat (n_swp g') <= 2.
Proof.
  intros h.
  assert (Hwf : heap_wf h) by (unfold heap_wf, INT_MAX; simpl; lia).
  assert (Hpos : 0 < nr h) by (simpl; lia).
  split; [split_and!; first [done | apply int_swp]|].
  destruct (pop_push_cost int_callbacks h 7 empty_log int_swp Hwf Hpos)
    as (h' & g' & Hrun & Hl & Hs).
  exists h', g'. split; [done|]. exact (conj Hl Hs).
Defined.

Lemma push_cost_witness :
  let h := {| data := [1; 3; 2; 5; 9; 8; 0]; nr := 6; size := 7 |} in
  (swp_exchanges int_callbacks /\ heap_wf h /\ nr h < size h) /\
  exists h' g',
    __min_heap_push h 0 int_callbacks empty_log = Some (h', g') /\
    Z.of_nat (n_less g') <= 2 /\ (n_swp g' <= n_less g')%nat.
Proof.
  intros h.
  assert (Hwf : heap_wf h) by (unfold heap_wf, INT_MAX; simpl; lia).
  assert (Hfree : nr h < size h) by (simpl; lia).
  split; [split_and!; first [done | apply int_swp]|].
  destruct (push_cost int_callbacks h 0 empty_log int_swp Hwf Hfree)
    as (h' & g' & Hrun & Hl & Hs & _).
  exists h', g'. split; [done|]. simpl in Hl, Hs. split; [exact Hl | lia].
Defined.

Lemma heapify_all_cost_witness :
  let h := {| data := [9; 8; 7; 6; 5; 4; 3; 2; 1]; nr := 9; size := 9 |} in
  (swp_exchanges int_callbacks /\ heap_wf h) /\
  exists h' g',
    __min_heapify_all h int_callbacks empty_log = Some (h', g') /\
    Z.of_nat (n_less g') <= 36 /\ Z.of_nat (n_swp g') <= 18.
Proof.
  intros h.
  assert (Hwf : heap_wf h) by (unfold heap_wf, INT_MAX; simpl; lia).
  split; [split_and!; first [done | apply int_swp]|].
  destruct (heapify_all_cost int_callbacks h empty_log int_swp Hwf)
    as (h' & g' & Hrun & Hl & Hs).
  exists h', g'. split; [done|]. exact (conj Hl Hs).
Defined.

Lemma pop_push_new_minimum_witness :
  let h := {| data := [5; 7; 9; 0]; nr := 3; size := 4 |} in
  (swp_exchanges int_callbacks /\ heap_wf h /\ 0 < nr h /\
   forall i y, 1 <= i < nr h -> data h !! Z.to_nat i = Some y ->
               less int_callbacks 1 y = true) /\
  exists g',
    __min_heap_pop_push h 1 int_callbacks empty_log
    = Some ({| data := [1; 7; 9; 0]; nr := 3; size := 4 |}, g') /\
    n_swp g' = n_swp empty_log.
Proof.
  intros h.
  assert (Hwf : heap_wf h) by (unfold heap_wf, INT_MAX; simpl; lia).
  assert (Hpos : 0 < nr h) by (simpl; lia).
  assert (Hmin : forall i y, 1 <= i < nr h -> data h !! Z.to_nat i = Some y ->
                             less int_callbacks 1 y = true).
  { intros i y Hi Hy. simpl in Hi.
    assert (i = 1 \/ i = 2) as [-> | ->] by lia; simpl in Hy; by injection Hy as <-. }
  split; [split_and!; first [done | apply int_swp]|].
  apply (pop_push_new_minimum int_callbacks h 1 empty_log int_swp Hwf Hpos Hmin).
Defined.

Lemma pop_n_smallest_witness :
  let h := {| data := [1; 3; 2; 5; 9; 8]; nr := 6; size := 6 |} in
  (swp_exchanges int_callbacks /\ strict_weak_order int_callbacks /\ heap_wf h /\
   heap_property int_callbacks h /\ Z.of_nat 2 <= nr h) /\
  exists out h' g',
    pop_n int_callbacks 2 h empty_log = Some ((out, h'), g') /\
    length out = 2%nat /\ nr h' = nr h - Z.of_nat 2 /\ heap_wf h' /\
    live h ≡ₚ out ++ live h' /\ non_decreasing int_callbacks out /\
    (forall a b, a ∈ out -> b ∈ live h' -> less int_callbacks b a = false) /\
    heap_property int_callbacks h'.
Proof.
  intros h.
  assert (Hwf : heap_wf h) by (unfold heap_wf, INT_MAX; simpl; lia).
  assert (Hn : Z.of_nat 2 <= nr h) by (simpl; lia).
  assert (Hheap : heap_property int_callbacks h) by (apply heap_propertyb_sound; reflexivity).
  split; [split_and!; first [done | apply int_swp | apply int_swo]|].
  apply (pop_n_smallest int_callbacks 2 int_swp int_swo h empty_log Hwf Hheap Hn).
Defined.

(** ** Elements at the extremes of the order *)

Section Extremes.
Context {T : Type}.
Implicit Types (d : list T) (g : log) (h : min_heap T) (func : min_heap_callbacks T).

(** An element at [pos] that no element in front of it compares less than
    is carried to index 0, with one comparison and one swap per level. *)
Lemma sift_up_to_root func x fuel :
  swp_exchanges func ->
  forall pos d g,
    0 <= pos < Z.of_nat (length d) -> pos <= INT_MAX -> pos < Z.of_nat fuel ->
    d !! Z.to_nat pos = Some x ->
    (forall i y, 0 <= i < pos -> d !! Z.to_nat i = Some y -> less func y x = false) ->
    exists d' g',
      sift_up fuel func d pos g = Some (d', g') /\ d' !! 0%nat = Some x /\
      Z.of_nat (n_less g') = Z.of_nat (n_less g) + depth pos /\
      Z.of_nat (n_swp g') = Z.of_nat (n_swp g) + depth pos.
Proof.
  intros Hswp. induction fuel as [|fuel IH]; intros pos d g Hpos Hmax Hfuel Hx Hmin; [lia|].
  cbn [sift_up]. destruct (Z.gtb_spec pos 0) as [Hgt|Hle].
  - rewrite parent_of_eq by lia.
    pose proof (par_lt pos ltac:(lia)) as Hpar.
    pose proof (depth_par pos ltac:(lia)) as Hd.
    set (p := (pos - 1) / 2) in *.
    destruct (cell_exists d p ltac:(lia)) as [a Ha].
    unfold bind. rewrite (call_less_ok func d _ _ a x) by (done || lia).
    rewrite (Hmin p a) by (done || lia).
    rewrite (call_swp_ok func d _ _ a x) by (done || lia).
    set (d1 := <[Z.to_nat pos:=a]> (<[Z.to_nat p:=x]> d)).
    destruct (IH p d1 (add_swp 1 (add_less 1 g))) as (d' & g' & Hrun & H0 & Hl & Hs).
    + unfold d1. rewrite !length_insert. lia.
    + lia.
    + lia.
    + unfold d1. rewrite list_lookup_insert_ne by lia.
      apply list_lookup_insert_eq. lia.
    + intros i y Hi Hy. unfold d1 in Hy.
      rewrite !list_lookup_insert_ne in Hy by lia. apply (Hmin i y); [lia | done].
    + exists d', g'. split_and!; try done; simpl in Hl, Hs; lia.
  - assert (pos = 0) as -> by lia. exists d, g. unfold ret.
    split_and!; try done; unfold depth; simpl; lia.
Qed.

(** A pushed element that no live element compares less than -- a new
    minimum, or one tied with the root -- ends at index 0, after exactly
    [log2 (nr + 1)] comparisons and as many swaps. *)
Theorem push_minimum_rises func h x g :
  swp_exchanges func -> heap_wf h -> nr h < size h ->
  (forall y, y ∈ live h -> less func y x = false) ->
  exists h' g',
    __min_heap_push h x func g = Some (h', g') /\
    data h' !! 0%nat = Some x /\
    Z.of_nat (n_less g') = Z.of_nat (n_less g) + Z.log2 (nr h + 1) /\
    Z.of_nat (n_swp g') = Z.of_nat (n_swp g) + Z.log2 (nr h + 1).
Proof.
  intros Hswp Hwf Hfree Hmin. assert (Hwf' := Hwf). destruct Hwf' as (Hnr & Hlen & Hmax).
  unfold __min_heap_push, bind.
  rewrite Z.geb_leb. destruct (Z.leb_spec (size h) (nr h)); [lia|].
  rewrite warn_once_false. rewrite store_ok by lia.
  set (d1 := <[Z.to_nat (nr h) := x]> (data h)).
  destruct (sift_up_to_root func x (S (length (data h))) Hswp (nr h) d1 g)
    as (d' & g' & Hrun & H0 & Hl & Hs).
  - unfold d1. rewrite length_insert. lia.
  - unfold INT_MAX in *. lia.
  - lia.
  - unfold d1. apply list_lookup_insert_eq. lia.
  - intros i y Hi Hy. unfold d1 in Hy. rewrite list_lookup_insert_ne in Hy by lia.
    apply Hmin. apply list_elem_of_lookup. exists (Z.to_nat i).
    apply live_lookup. split; [lia | done].
  - rewrite Hrun. eexists _, g'. by split_and!.
Qed.

(** An element at [pos] that compares less than no live element -- a
    maximum, or one tied with everything below it -- sinks to a leaf of the
    heap, with one swap per level. *)
Theorem heapify_sinks_maximum func h pos r g :
  swp_exchanges func -> heap_wf h -> 0 <= pos < nr h ->
  data h !! Z.to_nat pos = Some r ->
  (forall i y, 0 <= i < nr h -> data h !! Z.to_nat i = Some y -> less func r y = false) ->
  exists h' g' L,
    __min_heapify h pos func g = Some (h', g') /\
    pos <= L < nr h /\ nr h <= 2 * L + 1 /\
    data h' !! Z.to_nat L = Some r /\
    Z.of_nat (n_swp g') = Z.of_nat (n_swp g) + (depth L - depth pos).
Proof.
  intros Hswp Hwf Hpos Hr Hmax.
  destruct (heapify_spec func h pos g Hswp Hwf Hpos) as (L0 & N0 & L & N & m & c & h' & Hrun).
  destruct Hrun as [_ _ _ _ _ Hfy Hup Hch HL Hleaf _ Hm Hbelow _ _ _ Hrot _].
  assert (Hm0 : m = 0%nat).
  { destruct m as [|m]; [done|].
    destruct (Hbelow 0%nat ltac:(lia)) as (r' & y & Hr' & Hy & Hlt).
    assert (r' = r) as -> by congruence. simpl in Hy.
    assert (HposL : pos <= L).
    { rewrite <- Hup. apply (chain_top_le L N 0); [done | lia]. }
    rewrite (Hmax L y) in Hlt; [done | lia | done]. }
  subst m. replace (N - 0)%nat with N in * by lia.
  change (up 0 L) with L in Hrot.
  destruct Hrot as (_ & Hj & _ & _). rewrite Hup in Hj.
  pose proof (chain_depth L N Hch) as Hd. rewrite Hup in Hd.
  assert (HposL : pos <= L).
  { rewrite <- Hup. apply (chain_top_le L N 0); [done | lia]. }
  exists h', (add_swp N (add_less (c + N0) g)), L.
  split_and!; try done; try lia; [congruence | simpl; lia].
Qed.

End Extremes.

Lemma push_minimum_rises_witness :
  let h := {| data := [4; 4; 9; 0]; nr := 3; size := 4 |} in
  (swp_exchanges int_callbacks /\ heap_wf h /\ nr h < size h /\
   forall y, y ∈ live h -> less int_callbacks y 4 = false) /\
  exists h' g',
    __min_heap_push h 4 int_callbacks empty_log = Some (h', g') /\
    data h' !! 0%nat = Some 4 /\
    Z.of_nat (n_less g') = 2 /\ Z.of_nat (n_swp g') = 2.
Proof.
  intros h.
  assert (Hwf : heap_wf h) by (unfold heap_wf, INT_MAX; simpl; lia).
  assert (Hfree : nr h < size h) by (simpl; lia).
  assert (Hmin : forall y, y ∈ live h -> less int_callbacks y 4 = false).
  { intros y Hy. change (live h) with [4; 4; 9] in Hy.
    repeat (apply elem_of_cons in Hy as [-> | Hy]; [reflexivity|]).
    by apply elem_of_nil in Hy. }
  split; [split_and!; first [done | apply int_swp]|].
  destruct (push_minimum_rises int_callbacks h 4 empty_log int_swp Hwf Hfree Hmin)
    as (h' & g' & Hrun & H0 & Hl & Hs).
  exists h', g'. split_and!; [done | done | exact Hl | exact Hs].
Defined.

Lemma heapify_sinks_maximum_witness :
  let h := {| data := [4; 4; 4; 4; 4]; nr := 5; size := 5 |} in
  (swp_exchanges int_callbacks /\ heap_wf h /\ 0 <= 0 < nr h /\
   data h !! Z.to_nat 0 = Some 4 /\
   forall i y, 0 <= i < nr h -> data h !! Z.to_nat i = Some y ->
               less int_callbacks 4 y = false) /\
  exists h' g' L,
    __min_heapify h 0 int_callbacks empty_log = Some (h', g') /\
    0 <= L < nr h /\ nr h <= 2 * L + 1 /\
    data h' !! Z.to_nat L = Some 4 /\
    Z.of_nat (n_swp g') = Z.of_nat (n_swp empty_log) + (depth L - depth 0).
Proof.
  intros h.
  assert (Hwf : heap_wf h) by (unfold heap_wf, INT_MAX; simpl; lia).
  assert (Hpos : 0 <= 0 < nr h) by (simpl; lia).
  assert (Hmax : forall i y, 0 <= i < nr h -> data h !! Z.to_nat i = Some y ->
                             less int_callbacks 4 y = false).
  { intros i y Hi Hy. apply list_elem_of_lookup_2 in Hy.
    change (data h) with [4; 4; 4; 4; 4] in Hy.
    repeat (apply elem_of_cons in Hy as [-> | Hy]; [reflexivity|]).
    by apply elem_of_nil in Hy. }
  split; [split_and!; first [done | apply int_swp]|].
  apply (heapify_sinks_maximum int_callbacks h 0 4 empty_log int_swp Hwf Hpos eq_refl Hmax).
Defined.
